(** * sr-proxy: the cache-fetch unit and the two request handlers of
    [src/server.js], embedded as state-passing functions over JavaScript
    values, and the properties of the specification checked against them. *)

From Stdlib Require Import ZArith String Ascii List PrimFloat.
From stdpp Require Import gmap strings list pretty.

Set Default Proof Using "Type".
Local Set Warnings "-register-all".
Local Open Scope string_scope.
Local Open Scope Z_scope.

(** ** JavaScript values and the built-ins the server uses *)

Module JS.

(** The values that reach the handlers: what [JSON.parse] produces, and
    [undefined] for absent properties.  Numbers are IEEE binary64.  An
    object lists its own properties; [JSON.parse] builds plain objects, and
    none of the property names read by the server lives on a built-in
    prototype, so a read is a lookup among the own properties. *)
Inductive value :=
| VUndef
| VNull
| VBool (b : bool)
| VNum (n : float)
| VStr (s : string)
| VArr (items : list value)
| VObj (props : list (string * value)).

(** What a [throw] carries.  [TypeError] is raised by the engine, [Error] by
    [getJsonWithCache], [SyntaxError] by a failed JSON decode. *)
Inductive exn :=
| Error (msg : string)
| TypeError (msg : string)
| SyntaxError (msg : string).

(** [e.message] *)
Definition message (e : exn) : string :=
  match e with Error m | TypeError m | SyntaxError m => m end.

(** A computation that returns or throws. *)
Inductive result (A : Type) :=
| Ok (a : A)
| Throw (e : exn).
Arguments Ok {A} a.
Arguments Throw {A} e.

Definition bind {A B} (r : result A) (k : A -> result B) : result B :=
  match r with Ok a => k a | Throw e => Throw e end.

Definition is_ok {A} (r : result A) : bool :=
  match r with Ok _ => true | Throw _ => false end.

(** ToBoolean *)
Definition truthy (v : value) : bool :=
  match v with
  | VUndef | VNull => false
  | VBool b => b
  | VNum n => negb (PrimFloat.eqb n 0%float || negb (PrimFloat.eqb n n))
  | VStr s => negb (String.eqb s "")
  | VArr _ | VObj _ => true
  end.

Definition nullish (v : value) : bool :=
  match v with VUndef | VNull => true | _ => false end.

Fixpoint own (k : string) (props : list (string * value)) : value :=
  match props with
  | [] => VUndef
  | (k', v) :: rest => if String.eqb k' k then v else own k rest
  end.

(** [v.k] on a value that is not nullish. *)
Definition read (v : value) (k : string) : value :=
  match v with
  | VObj props => own k props
  | _ => VUndef
  end.

Definition type_name (v : value) : string :=
  match v with VNull => "null" | _ => "undefined" end.

(** [v.k]: throws on [null] and [undefined]. *)
Definition get (v : value) (k : string) : result value :=
  if nullish v
  then Throw (TypeError ("Cannot read properties of " +:+ type_name v
                           +:+ " (reading '" +:+ k +:+ "')"))
  else Ok (read v k).

(** [v?.k] *)
Definition get_opt (v : value) (k : string) : value :=
  if nullish v then VUndef else read v k.

(** [a ?? b] *)
Definition coalesce (a b : value) : value :=
  if nullish a then b else a.

(** [a || b] *)
Definition or_else (a b : value) : value :=
  if truthy a then a else b.

(** [v === s] for a string literal [s] *)
Definition is_string (v : value) (s : string) : bool :=
  match v with VStr s' => String.eqb s' s | _ => false end.

(** [Array.prototype.find]: the first element the callback accepts, else
    [undefined]; a throwing callback ends the search. *)
Fixpoint array_find (cb : value -> result bool) (l : list value)
  : result value :=
  match l with
  | [] => Ok VUndef
  | x :: rest =>
      bind (cb x) (fun b => if b then Ok x else array_find cb rest)
  end.

(** The engine names the callee by its source text, [callee]. *)
Definition not_a_function (callee : string) : exn :=
  TypeError (callee +:+ " is not a function").

(** [v?.find(cb)]: short-circuits on a nullish [v]; only arrays have
    [find]. *)
Definition find_opt (callee : string) (v : value)
    (cb : value -> result bool) : result value :=
  match v with
  | VUndef | VNull => Ok VUndef
  | VArr l => array_find cb l
  | _ => Throw (not_a_function callee)
  end.

(** [Array.prototype.map] on the elements, left to right. *)
Fixpoint array_map {B} (cb : value -> result B) (l : list value)
  : result (list B) :=
  match l with
  | [] => Ok []
  | x :: rest =>
      bind (cb x) (fun y => bind (array_map cb rest) (fun ys => Ok (y :: ys)))
  end.

(** [v.map(cb)] for a truthy [v] *)
Definition map_of {B} (callee : string) (v : value) (cb : value -> result B)
  : result (list B) :=
  match v with
  | VArr l => array_map cb l
  | _ => Throw (not_a_function callee)
  end.

(** [Array.prototype.filter] on a list, left to right. *)
Fixpoint array_filter {A} (cb : A -> result bool) (l : list A)
  : result (list A) :=
  match l with
  | [] => Ok []
  | x :: rest =>
      bind (cb x) (fun b =>
      bind (array_filter cb rest) (fun ys => Ok (if b then x :: ys else ys)))
  end.

(** [String.prototype.includes] *)
Fixpoint includes (s needle : string) : bool :=
  String.prefix needle s
  || match s with
     | EmptyString => false
     | String _ s' => includes s' needle
     end.

End JS.
Import JS.

Notation "x <- r ;; k" := (bind r (fun x => k))
  (at level 100, r at next level, right associativity).

(** ** Strings handed to the upstream

    Strings are sequences of UTF-8 bytes. *)

Definition unreserved (c : ascii) : bool :=
  let n := N_of_ascii c in
  ((65 <=? n) && (n <=? 90) || (97 <=? n) && (n <=? 122)
   || (48 <=? n) && (n <=? 57))%N
  || existsb (Ascii.eqb c) (list_ascii_of_string "-_.!~*'()").

Definition hex_digit (n : N) : ascii :=
  nth (N.to_nat n) (list_ascii_of_string "0123456789ABCDEF") "0"%char.

(** [encodeURIComponent]: every byte outside the unreserved set becomes
    [%XX]. *)
Fixpoint encodeURIComponent (s : string) : string :=
  match s with
  | EmptyString => EmptyString
  | String c rest =>
      (if unreserved c then String c EmptyString
       else let n := N_of_ascii c in
            String "%" (String (hex_digit (n / 16)) (String (hex_digit (n mod 16)) EmptyString)))
      +:+ encodeURIComponent rest
  end.

(** ** The cache-fetch unit *)

(** A cache entry, [{ t: now, d: data }]. *)
Record entry := { t : Z; d : value }.

Definition CACHE_TTL_MS : Z := 30000.
Definition SR_BASE : string := "https://api.sportradar.com".

(** What [await fetch(url)] hands back.  [text] and [json] are what the two
    body readers settle with. *)
Record Response := {
  ok : bool;
  status : N;
  statusText : string;
  text : result string;
  json : result value;
}.

Inductive fetch_outcome :=
| Rejected (e : exn)
| Responded (r : Response).

(** One exchange with the upstream: how the request ends, and the
    milliseconds that pass on the clock until the caller's last [await] on
    it has settled. *)
Record exchange := { elapsed : Z; outcome : fetch_outcome }.

(** The process: the [CACHE] map, the clock behind [Date.now()], and the
    URLs handed to [fetch] so far, oldest first. *)
Record state := {
  CACHE : gmap string entry;
  clock : Z;
  fetched : list string;
}.

Definition tick (dt : Z) (s : state) : state :=
  {| CACHE := CACHE s; clock := clock s + dt; fetched := fetched s |}.

Definition request (url : string) (s : state) : state :=
  {| CACHE := CACHE s; clock := clock s; fetched := fetched s ++ [url] |}.

(** [CACHE.set(url, e)] *)
Definition CACHE_set (url : string) (e : entry) (s : state) : state :=
  {| CACHE := <[url := e]> (CACHE s); clock := clock s; fetched := fetched s |}.

(** [getJsonWithCache] up to its first suspension: either it has returned
    from the cache, or a request is in flight and [now] is captured. *)
Inductive started :=
| Hit (data : value)
| Pending (now : Z) (nth : nat).

Definition start (url : string) (s : state) : started * state :=
  let hit := CACHE s !! url in
  let now := clock s in
  let miss := (Pending now (length (fetched s)), request url s) in
  match hit with
  | Some hit => if now - t hit <? CACHE_TTL_MS then (Hit (d hit), s) else miss
  | None => miss
  end.

(** Lines 33-34: what the call makes of the settled request. *)
Definition received (o : fetch_outcome) : result value :=
  match o with
  | Rejected e => Throw e
  | Responded r =>
      if negb (ok r)
      then body <- text r ;;
           Throw (Error (pretty (status r) +:+ " " +:+ statusText r
                           +:+ ": " +:+ body))
      else json r
  end.

(** Lines 33-36, run when the request has settled. *)
Definition settle (url : string) (now : Z) (o : fetch_outcome) (s : state)
  : result value * state :=
  match received o with
  | Ok data => (Ok data, CACHE_set url {| t := now; d := data |} s)
  | Throw e => (Throw e, s)
  end.

Definition served_from_cache (url : string) (s : state) : bool :=
  match fst (start url s) with Hit _ => true | Pending _ _ => false end.

(** ** Requests and responses *)

(** A parsed query-string value: a string, or what repeated and bracketed
    keys make of it. *)
Inductive qval :=
| QStr (s : string)
| QArr (items : list qval)
| QObj (fields : list (string * qval)).

(** Whether the object has an own property [k]. *)
Definition own_key (k : string) (fields : list (string * qval)) : bool :=
  existsb (fun kv => String.eqb (fst kv) k) fields.

(** ToString, as in [String(home)] and in [encodeURIComponent(date)].  An
    array joins the texts of its elements, left to right.  An object is
    "[object Object]" by the inherited [toString]; an own [toString] can
    only be a parsed value, which is not callable, and then no conversion
    is left: the engine throws. *)
Fixpoint String_ (v : qval) : result string :=
  match v with
  | QStr s => Ok s
  | QArr items =>
      (fix join (l : list qval) : result string :=
         match l with
         | [] => Ok ""
         | [x] => String_ x
         | x :: rest =>
             a <- String_ x ;; b <- join rest ;; Ok (a +:+ "," +:+ b)
         end) items
  | QObj fields =>
      if own_key "toString" fields
      then Throw (TypeError "Cannot convert object to primitive value")
      else Ok "[object Object]"
  end.

(** Truthiness of a query parameter; [None] is [undefined]. *)
Definition given (p : option qval) : bool :=
  match p with
  | None => false
  | Some (QStr s) => negb (String.eqb s "")
  | Some _ => true
  end.

(** [req.query] of the match search. *)
Module Query.
Record t := { date : option qval; home : option qval; away : option qval }.
End Query.

(** The object built per event on line 65. *)
Record MatchSummary := {
  match_id : value;
  scheduled : value;
  league : value;
  home : value;
  away : value;
}.

(** The objects built on lines 85-91. *)
Record Outcome := { label : value; probability : value }.
Record Market := { key : value; outcomes : list Outcome }.

(** The argument of [res.json]. *)
Inductive body :=
| ErrorBody (error : string)
| MatchesBody (date : option qval) (count : nat) (matches : list MatchSummary)
| OddsBody (id : string) (scheduled home away : value)
    (markets : list Market).

Record reply := { code : N; sent : body }.

(** The [catch] of both handlers, and the plain [res.json]. *)
Definition respond (r : result body) : reply :=
  match r with
  | Ok b => {| code := 200; sent := b |}
  | Throw e => {| code := 500; sent := ErrorBody (message e) |}
  end.

(** [c => c.qualifier === q] *)
Definition has_qualifier (q : string) (c : value) : result bool :=
  qualifier <- get c "qualifier" ;; Ok (is_string qualifier q).

(** [x?.competitors?.find(c => c.qualifier === q)?.name], where [expr] is
    the source text of [x]. *)
Definition competitor_name (expr : string) (x : value) (q : string)
  : result value :=
  c <- find_opt (expr +:+ "?.competitors?.find") (get_opt x "competitors")
         (has_qualifier q) ;;
  Ok (get_opt c "name").

(** The callback of line 62. *)
Definition summary_of (ev : value) : result MatchSummary :=
  h <- competitor_name "ev" ev "home" ;;
  a <- competitor_name "ev" ev "away" ;;
  Ok {| match_id := get_opt ev "id";
        scheduled := get_opt ev "start_time";
        league := get_opt (get_opt ev "tournament") "name";
        home := coalesce h (VStr "");
        away := coalesce a (VStr "") |}.

(** The callbacks of lines 85-91. *)
Definition outcome_of (o : value) : result Outcome :=
  l <- get o "name" ;;
  p <- get o "probability" ;;
  Ok {| label := l; probability := p |}.

Definition market_of (m : value) : result Market :=
  k <- get m "name" ;;
  os <- get m "outcomes" ;;
  outs <- map_of "(m.outcomes || []).map" (or_else os (VArr [])) outcome_of ;;
  Ok {| key := k; outcomes := outs |}.

(** [(prob?.probabilities?.markets || []).map(...)] *)
Definition markets_of (prob : value) : result (list Market) :=
  map_of "(prob?.probabilities?.markets || []).map"
    (or_else (get_opt (get_opt prob "probabilities") "markets") (VArr []))
    market_of.

(** ** Start-up, the access gate and [baseUrlFrom] *)

(** The variables read from [process.env] on lines 7-11; [None] is
    [undefined]. *)
Module Env.
Record t := {
  SR_API_KEY : option string;
  PROXY_API_KEY : option string;
  SR_SOCCER_BASE : option string;
}.
End Env.

(** Truthiness of an environment variable or header value. *)
Definition is_set (v : option string) : bool :=
  match v with
  | Some s => negb (String.eqb s "")
  | None => false
  end.

(** Lines 13-16: whether the process exits at start-up. *)
Definition exits (env : Env.t) : bool :=
  negb (is_set (Env.SR_API_KEY env)) || negb (is_set (Env.PROXY_API_KEY env)).

(** The default of line 10 applies to an [undefined] variable only. *)
Definition soccer_base (env : Env.t) : string :=
  default "/soccer/trial/v4/es" (Env.SR_SOCCER_BASE env).

(** Lines 46-51: the middleware before the routes, on [req.path] and the
    [X-API-Key] header.  [None] is [next()]. *)
Definition authorize (PROXY_API_KEY : option string) (path : string)
    (key : option string) : option reply :=
  if String.eqb path "/healthz" || String.eqb path "/openapi.yaml" then None
  else if negb (bool_decide (key = PROXY_API_KEY))
       then Some {| code := 401; sent := ErrorBody "Unauthorized" |}
       else None.

(** A route handler behind the middleware. *)
Definition behind_gate (PROXY_API_KEY : option string) (path : string)
    (key : option string) (handler : state -> reply * state) (s : state)
  : reply * state :=
  match authorize PROXY_API_KEY path key with
  | Some refusal => (refusal, s)
  | None => handler s
  end.

(** Lines 39-43, on the two headers it reads; an [undefined] host is
    interpolated as the text "undefined". *)
Definition baseUrlFrom (x_forwarded_proto host : option string) : string :=
  let proto := if is_set x_forwarded_proto
               then default "" x_forwarded_proto else "https" in
  proto +:+ "://" +:+ default "undefined" host.

(** ** Sample data

    The scenario of the specification: two scheduled events, a summary
    whose home competitor is missing, and a probabilities response. *)

Module Sample.

(** Lower-casing of the ASCII letters. *)
Definition lower_char (c : ascii) : ascii :=
  let n := N_of_ascii c in
  if ((65 <=? n) && (n <=? 90))%N then ascii_of_N (n + 32) else c.

Fixpoint lower (s : string) : string :=
  match s with
  | EmptyString => EmptyString
  | String c rest => String (lower_char c) (lower rest)
  end.

Definition competitor (q name : string) : value :=
  VObj [("name", VStr name); ("qualifier", VStr q)].

Definition event (id start league h a : string) : value :=
  VObj [("id", VStr id);
        ("start_time", VStr start);
        ("tournament", VObj [("name", VStr league)]);
        ("competitors", VArr [competitor "home" h; competitor "away" a])].

Definition schedule : value :=
  VObj [("sport_events",
         VArr [event "sr:match:1" "2024-05-01T19:00:00+00:00" "LaLiga"
                 "Real Madrid" "Barcelona";
               event "sr:match:2" "2024-05-01T21:00:00+00:00" "LaLiga"
                 "Sevilla" "Betis"])].

Definition away_only : value :=
  VObj [("id", VStr "sr:match:2");
        ("start_time", VStr "2024-05-01T21:00:00+00:00");
        ("competitors", VArr [competitor "away" "Betis"])].

Definition summary_without_home : value :=
  VObj [("sport_event", away_only)].

Definition probabilities : value :=
  VObj [("probabilities",
         VObj [("markets",
                VArr [VObj [("name", VStr "3way");
                            ("outcomes",
                             VArr [VObj [("name", VStr "home_team_winner");
                                         ("probability", VNum 45.5)];
                                   VObj [("name", VStr "draw");
                                         ("probability", VNum 24.5)];
                                   VObj [("name", VStr "away_team_winner");
                                         ("probability", VNum 30)]])];
                      VObj [("name", VStr "btts")]])])].

Definition answers (data : value) (ms : Z) : exchange :=
  {| elapsed := ms;
     outcome := Responded {| ok := true; status := 200; statusText := "OK";
                             text := Ok ""; json := Ok data |} |}.

Definition unavailable : exchange :=
  {| elapsed := 40;
     outcome := Responded {| ok := false; status := 503;
                             statusText := "Service Unavailable";
                             text := Ok "upstream down";
                             json := Throw (SyntaxError "Unexpected token u") |} |}.

Definition upstream (n : nat) (url : string) : exchange :=
  if includes url "/probabilities.json" then answers probabilities 120
  else if includes url "/summary.json" then answers summary_without_home 80
  else answers schedule 250.

Definition down (n : nat) (url : string) : exchange := unavailable.

Definition probabilities_down (n : nat) (url : string) : exchange :=
  if includes url "/probabilities.json" then unavailable else upstream n url.

Definition boot : state :=
  {| CACHE := ∅; clock := 1714590000000; fetched := [] |}.

Definition cached : entry := {| t := 1714589990000; d := schedule |}.

(** Ten seconds, and forty seconds, after [cached] was stored. *)
Definition warm : state :=
  {| CACHE := {[ "https://upstream/x.json" := cached ]};
     clock := 1714590000000; fetched := ["https://upstream/x.json"] |}.

Definition cold : state :=
  {| CACHE := {[ "https://upstream/x.json" := cached ]};
     clock := 1714590030000; fetched := ["https://upstream/x.json"] |}.

Definition real_barcelona : MatchSummary :=
  {| match_id := VStr "sr:match:1";
     scheduled := VStr "2024-05-01T19:00:00+00:00";
     league := VStr "LaLiga";
     home := VStr "Real Madrid";
     away := VStr "Barcelona" |}.

Definition sevilla_betis : MatchSummary :=
  {| match_id := VStr "sr:match:2";
     scheduled := VStr "2024-05-01T21:00:00+00:00";
     league := VStr "LaLiga";
     home := VStr "Sevilla";
     away := VStr "Betis" |}.

(** A schedule whose second event has [null] among its competitors. *)
Definition broken_event : value :=
  VObj [("id", VStr "sr:match:3"); ("competitors", VArr [VNull])].

Definition broken_schedule : value :=
  VObj [("sport_events",
         VArr [event "sr:match:1" "2024-05-01T19:00:00+00:00" "LaLiga"
                 "Real Madrid" "Barcelona";
               broken_event])].

Definition environment : Env.t :=
  {| Env.SR_API_KEY := Some "KEY";
     Env.PROXY_API_KEY := Some "secret";
     Env.SR_SOCCER_BASE := None |}.

Definition home_real : Query.t :=
  {| Query.date := Some (QStr "2024-05-01");
     Query.home := Some (QStr "real");
     Query.away := None |}.

End Sample.

Section Server.

(** The environment: [SR_API_KEY], [SR_SOCCER_BASE]. *)
Variable SR_API_KEY : string.
Variable SR_SOCCER_BASE : string.

(** [String.prototype.toLowerCase] *)
Variable toLowerCase : string -> string.

(** How the upstream answers the n-th request the process makes. *)
Variable upstream : nat -> string -> exchange.

(** [await getJsonWithCache(url)] with nothing else running. *)
Definition getJsonWithCache (url : string) (s : state)
  : result value * state :=
  match start url s with
  | (Hit data, s') => (Ok data, s')
  | (Pending now n, s') =>
      let x := upstream n url in
      settle url now (outcome x) (tick (elapsed x) s')
  end.

(** *** [GET /search/matches] *)

(** Line 60, from the text that [encodeURIComponent] makes of [date]. *)
Definition schedules_url (date : string) : string :=
  SR_BASE +:+ SR_SOCCER_BASE +:+ "/schedules/"
    +:+ encodeURIComponent date
    +:+ "/schedules.json?api_key=" +:+ SR_API_KEY.

(** [name?.toLowerCase().includes(String(filter).toLowerCase())], where
    [expr] is the source text of [name]; a nullish name short-circuits the
    whole chain to [undefined], and the argument is evaluated after the
    call of [toLowerCase] on the name. *)
Definition name_includes (expr : string) (name : value) (filter : qval)
  : result bool :=
  match name with
  | VUndef | VNull => Ok false
  | VStr s =>
      text <- String_ filter ;;
      Ok (includes (toLowerCase s) (toLowerCase text))
  | _ => Throw (not_a_function (expr +:+ "?.toLowerCase"))
  end.

(** Lines 67 and 68: [if (p) matches = matches.filter(...)]. *)
Definition filter_by (p : option qval) (expr : string)
    (field : MatchSummary -> value) (matches : list MatchSummary)
  : result (list MatchSummary) :=
  match p with
  | Some f =>
      if given p
      then array_filter (fun m => name_includes expr (field m) f) matches
      else Ok matches
  | None => Ok matches
  end.

(** Lines 67-69, from the mapped summaries on. *)
Definition filtered (q : Query.t) (matches : list MatchSummary)
  : result body :=
  matches <- filter_by (Query.home q) "m.home" home matches ;;
  matches <- filter_by (Query.away q) "m.away" away matches ;;
  Ok (MatchesBody (Query.date q) (length matches) matches).

(** Lines 62-69. *)
Definition search_body (q : Query.t) (data : value) : result body :=
  matches <- map_of "(data?.sport_events || []).map"
               (or_else (get_opt data "sport_events") (VArr [])) summary_of ;;
  filtered q matches.

Definition search_matches (q : Query.t) (s : state) : reply * state :=
  match Query.date q with
  | Some date =>
      if given (Query.date q) then
        match String_ date with
        | Ok text =>
            let '(data, s') := getJsonWithCache (schedules_url text) s in
            (respond (data <- data ;; search_body q data), s')
        | Throw e => (respond (Throw e), s)
        end
      else ({| code := 400; sent := ErrorBody "Falta ?date=YYYY-MM-DD" |}, s)
  | None => ({| code := 400; sent := ErrorBody "Falta ?date=YYYY-MM-DD" |}, s)
  end.

(** *** [GET /odds/match/:id] *)

Definition probUrl (id : string) : string :=
  SR_BASE +:+ SR_SOCCER_BASE +:+ "/matches/" +:+ encodeURIComponent id
    +:+ "/probabilities.json?api_key=" +:+ SR_API_KEY.

Definition sumUrl (id : string) : string :=
  SR_BASE +:+ SR_SOCCER_BASE +:+ "/matches/" +:+ encodeURIComponent id
    +:+ "/summary.json?api_key=" +:+ SR_API_KEY.

(** When a started call settles, counted from the moment it was started,
    and what it then does. *)
Definition due (url : string) (p : started) : Z :=
  match p with
  | Hit _ => 0
  | Pending _ n => elapsed (upstream n url)
  end.

Definition finish (url : string) (p : started) (s : state)
  : result value * state :=
  match p with
  | Hit data => (Ok data, s)
  | Pending now n => settle url now (outcome (upstream n url)) s
  end.

(** [await Promise.all([a, b])] on two started calls: they settle in the
    order in which they are due, [a] first on a tie; the first rejection is
    what the [await] throws, and the other call still runs to its end. *)
Definition Promise_all (ua ub : string) (a b : started) (s : state)
  : result (value * value) * state :=
  let ta := due ua a in
  let tb := due ub b in
  if ta <=? tb then
    let '(ra, s1) := finish ua a (tick ta s) in
    let '(rb, s2) := finish ub b (tick (tb - ta) s1) in
    (match ra with
     | Throw e => Throw e
     | Ok x => y <- rb ;; Ok (x, y)
     end, s2)
  else
    let '(rb, s1) := finish ub b (tick tb s) in
    let '(ra, s2) := finish ua a (tick (ta - tb) s1) in
    (match rb with
     | Throw e => Throw e
     | Ok y => x <- ra ;; Ok (x, y)
     end, s2).

(** The two calls of line 79, as the handler starts them. *)
Definition odds_calls (id : string) (s : state)
  : (started * started) * state :=
  let '(a, s1) := start (probUrl id) s in
  let '(b, s2) := start (sumUrl id) s1 in
  ((a, b), s2).

(** Lines 81-93. *)
Definition odds_body (id : string) (prob sum : value) : result body :=
  home <- competitor_name "sum?.sport_event" (get_opt sum "sport_event")
            "home" ;;
  away <- competitor_name "sum?.sport_event" (get_opt sum "sport_event")
            "away" ;;
  let scheduled := get_opt (get_opt sum "sport_event") "start_time" in
  markets <- markets_of prob ;;
  Ok (OddsBody id scheduled home away markets).

Definition odds_match (id : string) (s : state) : reply * state :=
  let '((a, b), s1) := odds_calls id s in
  let '(both, s2) := Promise_all (probUrl id) (sumUrl id) a b s1 in
  (respond (ps <- both ;; odds_body id (fst ps) (snd ps)), s2).

(** ** Vocabulary of the specification *)

(** The three ways in which an upstream fetch fails. *)
Inductive fetch_fails : fetch_outcome -> Prop :=
| transport_failure e : fetch_fails (Rejected e)
| non_success_status r : ok r = false -> fetch_fails (Responded r)
| decode_failure r e : ok r = true -> json r = Throw e ->
    fetch_fails (Responded r).

(** No entry for [url], or one that is at least 30,000 ms old at [now]. *)
Definition absent_or_expired (cache : gmap string entry) (url : string)
    (now : Z) : Prop :=
  cache !! url = None
  \/ exists hit, cache !! url = Some hit /\ 30000 <= now - t hit.

(** What a started call settles with. *)
Definition settles_with (url : string) (p : started) : result value :=
  match p with
  | Hit data => Ok data
  | Pending _ n => received (outcome (upstream n url))
  end.

(** An entry of an upstream list: anything but [null]. *)
Definition present (v : value) : Prop := nullish v = false.

(** An upstream list: missing, or an array of entries. *)
Definition well_listed (v : value) : Prop :=
  nullish v = true \/ exists l, v = VArr l /\ Forall present l.

(** Its entries, none when it is missing. *)
Definition items (v : value) : list value :=
  match v with VArr l => l | _ => [] end.

(** The competitor entry [c] has qualifier [q]; it is the one the lookup
    finds in [cs], the first such. *)
Definition qualified (q : string) (c : value) : Prop :=
  read c "qualifier" = VStr q.

Definition first_qualified (q : string) (cs : list value) (c : value)
  : Prop :=
  exists before after,
    cs = (before ++ c :: after)%list
    /\ qualified q c
    /\ Forall (fun c' => ~ qualified q c') before.

(** [name] is the team name the competitors [cs] give for qualifier [q]:
    the name of the entry with that qualifier, and the empty string when
    there is no such entry or it carries no name. *)
Definition resolves (q : string) (cs : list value) (name : value) : Prop :=
  (forall c, first_qualified q cs c -> present (read c "name") ->
             name = read c "name")
  /\ (forall c, first_qualified q cs c -> nullish (read c "name") = true ->
               name = VStr "")
  /\ ((forall c, c ∈ cs -> ~ qualified q c) -> name = VStr "").

(** [s] contains [sub] as a substring. *)
Definition contains (s sub : string) : Prop :=
  exists pre post, s = pre +:+ sub +:+ post.

(** A summary whose two team names are strings. *)
Definition string_named (m : MatchSummary) : Prop :=
  exists h a, home m = VStr h /\ away m = VStr a.

(** The team name [name] passes the filter parameter [p]: when the filter is
    given, the name contains its text, both lower-cased. *)
Definition passes (p : option qval) (name : value) : Prop :=
  forall f, p = Some f -> given p = true ->
    exists s text,
      name = VStr s /\ String_ f = Ok text
      /\ contains (toLowerCase s) (toLowerCase text).

(** The filter parameter [p], when given, has a text: its conversion by
    [String] does not throw. *)
Definition has_text (p : option qval) : Prop :=
  forall f, p = Some f -> given p = true -> exists text, String_ f = Ok text.

(** A competitor entry whose name, when it has one, is a string. *)
Definition string_or_no_name (c : value) : Prop :=
  nullish (read c "name") = true \/ exists n, read c "name" = VStr n.

(** A decision procedure for [passes]. *)
Definition passes_b (p : option qval) (name : value) : bool :=
  match p with
  | Some f =>
      if given p then
        match name, String_ f with
        | VStr s, Ok text => includes (toLowerCase s) (toLowerCase text)
        | _, _ => false
        end
      else true
  | None => true
  end.

(** The remapping of one market and of one outcome. *)
Definition remapped_outcome (o : value) : Outcome :=
  {| label := read o "name"; probability := read o "probability" |}.

Definition remapped_market (m : value) : Market :=
  {| key := read m "name";
     outcomes := map remapped_outcome (items (read m "outcomes")) |}.

(** The characters that structure a URL's path and query. *)
Definition separator (c : ascii) : bool :=
  existsb (Ascii.eqb c) (list_ascii_of_string "/?#&=").

(** The value of a hexadecimal digit. *)
Definition hex_value (c : ascii) : N :=
  let n := N_of_ascii c in
  (if n <? 58 then n - 48 else n - 55)%N.

(** The entry a started call stores when it settles, if any. *)
Definition stores (url : string) (p : started) : option entry :=
  match p with
  | Hit _ => None
  | Pending now n =>
      match received (outcome (upstream n url)) with
      | Ok data => Some {| t := now; d := data |}
      | Throw _ => None
      end
  end.

(** No cache entry carries a timestamp later than the clock. *)
Definition timestamps_in_past (s : state) : Prop :=
  forall url e, CACHE s !! url = Some e -> t e <= clock s.

(** Both team names of a summary are there. *)
Definition fully_named (m : MatchSummary) : Prop :=
  nullish (home m) = false /\ nullish (away m) = false.

(** ** The cache-fetch unit: properties *)

Lemma start_hit url s hit :
  CACHE s !! url = Some hit -> clock s - t hit < 30000 ->
  start url s = (Hit (d hit), s).
Proof.
  intros Hget Hage. unfold start. rewrite Hget.
  destruct (Z.ltb_spec (clock s - t hit) CACHE_TTL_MS) as [_|Hge]; [done|].
  unfold CACHE_TTL_MS in Hge. lia.
Qed.

Lemma start_miss url s :
  absent_or_expired (CACHE s) url (clock s) ->
  start url s = (Pending (clock s) (length (fetched s)), request url s).
Proof.
  intros [Hnone | (hit & Hget & Hage)]; unfold start.
  - by rewrite Hnone.
  - rewrite Hget.
    destruct (Z.ltb_spec (clock s - t hit) CACHE_TTL_MS) as [Hlt|_]; [|done].
    unfold CACHE_TTL_MS in Hlt. lia.
Qed.

Lemma received_fails o : fetch_fails o -> exists e, received o = Throw e.
Proof.
  destruct 1 as [e | r Hok | r e Hok Hjson]; simpl.
  - by exists e.
  - rewrite Hok. simpl. destruct (text r) as [body | e]; simpl; eauto.
  - rewrite Hok. simpl. eauto.
Qed.

(** C1: when the cache holds an entry for the URL and the clock minus the
    entry's timestamp is below 30,000 ms, [getJsonWithCache] returns the
    entry's payload and leaves the whole process state as it was: the cache
    map is not modified and no URL is handed to [fetch]. *)
Theorem fresh_entry_is_returned url s hit :
  CACHE s !! url = Some hit ->
  clock s - t hit < 30000 ->
  getJsonWithCache url s = (Ok (d hit), s).
Proof.
  intros Hget Hage. unfold getJsonWithCache.
  by rewrite (start_hit url s hit Hget Hage).
Qed.

(** C2: when the entry for the URL is absent or at least 30,000 ms old and
    the upstream fetch fails (transport failure, non-success status, or JSON
    decode failure), [getJsonWithCache] throws and the cache map is exactly
    what it was: nothing is stored, and the expired payload is not
    returned. *)
Theorem failed_fetch_throws_and_stores_nothing url s :
  absent_or_expired (CACHE s) url (clock s) ->
  fetch_fails (outcome (upstream (length (fetched s)) url)) ->
  exists e,
    fst (getJsonWithCache url s) = Throw e
    /\ CACHE (snd (getJsonWithCache url s)) = CACHE s.
Proof.
  intros Hmiss Hfail. unfold getJsonWithCache.
  rewrite (start_miss url s Hmiss).
  destruct (received_fails _ Hfail) as [e He].
  exists e. unfold settle. by rewrite He.
Qed.

(** C9: on a successful fetch after a miss or an expired entry, the entry
    stored under the URL carries the clock value read at lookup time, before
    the request was made; the clock has meanwhile advanced by the duration
    of the fetch, so from the moment the call returns a further call is
    served from the cache exactly for [30000 - duration] more
    milliseconds. *)
Theorem stored_timestamp_is_lookup_time url s data :
  absent_or_expired (CACHE s) url (clock s) ->
  fst (getJsonWithCache url s) = Ok data ->
  let duration := elapsed (upstream (length (fetched s)) url) in
  let s' := snd (getJsonWithCache url s) in
  CACHE s' !! url = Some {| t := clock s; d := data |}
  /\ clock s' = clock s + duration
  /\ forall later,
       served_from_cache url (tick later s') = true
       <-> later < 30000 - duration.
Proof.
  intros Hmiss. unfold getJsonWithCache.
  rewrite (start_miss url s Hmiss). unfold settle.
  destruct (received _) as [data' | e]; simpl; [|done].
  intros [= ->]. split_and!.
  - by rewrite lookup_insert_eq.
  - done.
  - intros later. unfold served_from_cache, start. simpl.
    rewrite lookup_insert_eq. simpl.
    destruct (Z.ltb_spec (clock s + elapsed (upstream (length (fetched s)) url)
                            + later - clock s) CACHE_TTL_MS) as [H|H];
      unfold CACHE_TTL_MS in H; simpl; split; intros; try done; lia.
Qed.

(** ** The handlers: validation and failure *)

(** C8: a match search without a [date] parameter is answered with status
    400 and an error body, and the process state is untouched: no upstream
    URL enters the computation and nothing is fetched. *)
Theorem missing_date_is_rejected q s :
  Query.date q = None ->
  search_matches q s
  = ({| code := 400; sent := ErrorBody "Falta ?date=YYYY-MM-DD" |}, s).
Proof.
  intros Hdate. unfold search_matches. by rewrite Hdate.
Qed.

Lemma filter_by_empty expr field ms :
  filter_by (Some (QStr "")) expr field ms = Ok ms.
Proof. reflexivity. Qed.

Lemma filter_by_absent expr field ms : filter_by None expr field ms = Ok ms.
Proof. reflexivity. Qed.

(** C10: a [home] (or [away]) parameter that is present but empty is treated
    as absent: the filtering step is skipped, so the handler answers as it
    does for the request without that parameter. *)
Theorem empty_filter_is_skipped date h a s :
  search_matches
    {| Query.date := date; Query.home := Some (QStr ""); Query.away := a |} s
  = search_matches
      {| Query.date := date; Query.home := None; Query.away := a |} s
  /\ search_matches
       {| Query.date := date; Query.home := h; Query.away := Some (QStr "") |} s
     = search_matches
         {| Query.date := date; Query.home := h; Query.away := None |} s.
Proof.
  split; unfold search_matches; simpl;
    destruct date as [date|]; try reflexivity;
    destruct (given (Some date)); try reflexivity;
    destruct (String_ date) as [text|e]; try reflexivity;
    destruct (getJsonWithCache _ s) as [[data|e] s']; reflexivity.
Qed.

Lemma finish_result url p s : fst (finish url p s) = settles_with url p.
Proof.
  destruct p as [data | now n]; simpl; [done|].
  unfold settle. by destruct (received _).
Qed.

Lemma Promise_all_result ua ub a b s :
  fst (Promise_all ua ub a b s)
  = match settles_with ua a, settles_with ub b with
    | Ok x, Ok y => Ok (x, y)
    | Throw e, Ok _ => Throw e
    | Ok _, Throw e => Throw e
    | Throw ea, Throw eb => if due ua a <=? due ub b then Throw ea else Throw eb
    end.
Proof.
  unfold Promise_all.
  destruct (due ua a <=? due ub b).
  - destruct (finish ua a _) as [ra s1] eqn:Ha.
    destruct (finish ub b _) as [rb s2] eqn:Hb. simpl.
    apply (f_equal fst) in Ha, Hb. rewrite finish_result in Ha, Hb.
    simpl in Ha, Hb. rewrite Ha, Hb. by destruct ra, rb.
  - destruct (finish ub b _) as [rb s1] eqn:Hb.
    destruct (finish ua a _) as [ra s2] eqn:Ha. simpl.
    apply (f_equal fst) in Ha, Hb. rewrite finish_result in Ha, Hb.
    simpl in Ha, Hb. rewrite Ha, Hb. by destruct ra, rb.
Qed.

(** C4: when one of the two upstream calls of an odds request fails while
    the other succeeds, the handler answers with status 500 and an error
    body carrying the failure's message; no odds object is sent. *)
Theorem one_failed_call_fails_the_odds id s e v :
  let calls := fst (odds_calls id s) in
  (settles_with (probUrl id) (fst calls) = Throw e
   /\ settles_with (sumUrl id) (snd calls) = Ok v)
  \/ (settles_with (probUrl id) (fst calls) = Ok v
      /\ settles_with (sumUrl id) (snd calls) = Throw e) ->
  fst (odds_match id s) = {| code := 500; sent := ErrorBody (message e) |}.
Proof.
  unfold odds_match. destruct (odds_calls id s) as [[a b] s1]. simpl.
  intros H.
  destruct (Promise_all _ _ a b s1) as [both s2] eqn:Hall. simpl.
  apply (f_equal fst) in Hall. rewrite Promise_all_result in Hall.
  simpl in Hall. subst both.
  destruct H as [[-> ->] | [-> ->]]; reflexivity.
Qed.

(** ** The handlers: reshaping *)

Lemma is_string_spec v q : is_string v q = true <-> v = VStr q.
Proof.
  destruct v; simpl; try (split; [discriminate | intros [=]]).
  rewrite String.eqb_eq. split; [by intros -> | by intros [= ->]].
Qed.

Lemma get_present v k : present v -> get v k = Ok (read v k).
Proof. unfold present, get. by intros ->. Qed.

Lemma get_opt_present v k : present v -> get_opt v k = read v k.
Proof. unfold present, get_opt. by intros ->. Qed.

Lemma qualified_present q c : qualified q c -> present c.
Proof. unfold qualified. by destruct c. Qed.

(** The lookup on a list of entries never throws: it is the plain search
    for the first entry with the qualifier. *)
Lemma array_find_entries q cs :
  Forall present cs ->
  array_find (has_qualifier q) cs
  = Ok (default VUndef
          (List.find (fun c => is_string (read c "qualifier") q) cs)).
Proof.
  induction 1 as [| c cs Hc _ IH]; simpl; [done|].
  unfold has_qualifier at 1. rewrite (get_present _ _ Hc). simpl.
  by destruct (is_string _ q).
Qed.

Lemma find_first_qualified q cs c :
  first_qualified q cs c ->
  List.find (fun c => is_string (read c "qualifier") q) cs = Some c.
Proof.
  intros (before & after & -> & Hq & Hbefore).
  induction Hbefore as [| c' before Hc' _ IH]; simpl.
  - by rewrite (proj2 (is_string_spec _ _) Hq).
  - destruct (is_string _ q) eqn:E; [|done].
    by apply is_string_spec in E.
Qed.

Lemma find_none_qualified q cs :
  (forall c, c ∈ cs -> ~ qualified q c) ->
  List.find (fun c => is_string (read c "qualifier") q) cs = None.
Proof.
  induction cs as [| c cs IH]; simpl; [done|]. intros Hnone.
  destruct (is_string _ q) eqn:E.
  - apply is_string_spec in E. destruct (Hnone c); [left | done].
  - apply IH. intros c' Hin. apply Hnone. by right.
Qed.

Lemma competitor_name_resolves expr x q :
  well_listed (get_opt x "competitors") ->
  exists name,
    competitor_name expr x q = Ok name
    /\ resolves q (items (get_opt x "competitors")) (coalesce name (VStr "")).
Proof.
  unfold competitor_name.
  intros [Hmissing | (cs & -> & Hcs)].
  - destruct (get_opt x "competitors"); try discriminate; simpl;
      (eexists; split; [done|]); (split_and!; [| |done]);
      intros c (before & after & E & _); by destruct before.
  - simpl. rewrite (array_find_entries q cs Hcs). simpl.
    eexists; split; [done|]. split_and!.
    + intros c Hc Hname. rewrite (find_first_qualified _ _ _ Hc). simpl.
      destruct Hc as (_ & _ & _ & Hq & _).
      rewrite (get_opt_present _ _ (qualified_present _ _ Hq)).
      unfold coalesce. by rewrite Hname.
    + intros c Hc Hname. rewrite (find_first_qualified _ _ _ Hc). simpl.
      destruct Hc as (_ & _ & _ & Hq & _).
      rewrite (get_opt_present _ _ (qualified_present _ _ Hq)).
      unfold coalesce. by rewrite Hname.
    + intros Hnone. by rewrite (find_none_qualified _ _ Hnone).
Qed.

(** C6: the match-search handler maps an upstream event, whose competitors
    are missing or a list of entries, to a summary without throwing; its
    [home] (respectively [away]) field is the name of the competitor entry
    whose qualifier is "home" (respectively "away"), and the empty string
    when there is no such entry. *)
Theorem summary_resolves_team_names ev :
  let cs := get_opt ev "competitors" in
  well_listed cs ->
  exists m,
    summary_of ev = Ok m
    /\ resolves "home" (items cs) (home m)
    /\ resolves "away" (items cs) (away m).
Proof.
  intros cs Hcs. unfold summary_of.
  destruct (competitor_name_resolves "ev" ev "home" Hcs) as (h & -> & Hh).
  destruct (competitor_name_resolves "ev" ev "away" Hcs) as (a & -> & Ha).
  simpl. eexists. split; [done|]. by split.
Qed.

(** The handler maps the events of the schedule one by one, in order. *)
Lemma array_map_each {B} (cb : value -> result B) l ys :
  array_map cb l = Ok ys <-> Forall2 (fun x y => cb x = Ok y) l ys.
Proof.
  revert ys. induction l as [| x l IH]; intros ys; simpl.
  - split; [intros [= <-]; constructor | by inversion 1].
  - destruct (cb x) as [y | e] eqn:Hx; simpl.
    + destruct (array_map cb l) as [ys' | e]; simpl.
      * split.
        -- intros [= <-]. constructor; [done | by apply IH].
        -- inversion 1 as [| ? y' ? ys'' Hy Hrest]; subst.
           apply IH in Hrest. congruence.
      * split; [done|]. inversion 1 as [| ? y' ? ys'' Hy Hrest]; subst.
        by apply IH in Hrest.
    + split; [done|]. inversion 1; congruence.
Qed.

Lemma search_body_maps_events q data evs :
  get_opt data "sport_events" = VArr evs ->
  search_body q data = (ms <- array_map summary_of evs ;; filtered q ms).
Proof. unfold search_body. by intros ->. Qed.

(** When the upstream names are strings, so are the names of the summary. *)
Lemma competitor_name_string expr x q name :
  well_listed (get_opt x "competitors") ->
  Forall string_or_no_name (items (get_opt x "competitors")) ->
  competitor_name expr x q = Ok name ->
  exists n, coalesce name (VStr "") = VStr n.
Proof.
  unfold competitor_name.
  intros [Hmissing | (cs & -> & Hcs)] Hnames.
  - destruct (get_opt x "competitors"); try discriminate; simpl;
      intros [= <-]; by eexists.
  - simpl in *. rewrite (array_find_entries q cs Hcs). simpl.
    destruct (List.find _ cs) as [c|] eqn:Hfind; simpl; intros [= <-].
    + apply find_some in Hfind as [Hin _]. apply list_elem_of_In in Hin.
      rewrite Forall_forall in Hcs, Hnames.
      rewrite (get_opt_present _ _ (Hcs c Hin)). unfold coalesce.
      destruct (Hnames c Hin) as [-> | (n & ->)]; by eexists.
    + by eexists.
Qed.

Lemma summary_of_string_named ev m :
  well_listed (get_opt ev "competitors") ->
  Forall string_or_no_name (items (get_opt ev "competitors")) ->
  summary_of ev = Ok m ->
  string_named m.
Proof.
  intros Hcs Hnames. unfold summary_of.
  destruct (competitor_name "ev" ev "home") as [h | e] eqn:Hh; [|done].
  destruct (competitor_name "ev" ev "away") as [a | e] eqn:Ha; [|done].
  simpl. intros [= <-]. unfold string_named. simpl.
  destruct (competitor_name_string _ _ _ _ Hcs Hnames Hh) as [n ->].
  destruct (competitor_name_string _ _ _ _ Hcs Hnames Ha) as [n' ->].
  by eexists _, _.
Qed.

Lemma or_else_missing v : nullish v = true -> or_else v (VArr []) = VArr [].
Proof. by destruct v. Qed.

Lemma array_map_total {B} (cb : value -> result B) (f : value -> B) l :
  Forall (fun x => cb x = Ok (f x)) l -> array_map cb l = Ok (map f l).
Proof.
  induction 1 as [| x l Hx _ IH]; simpl; [done|]. by rewrite Hx, IH.
Qed.

Lemma map_of_listed {B} callee (cb : value -> result B) (f : value -> B) v :
  well_listed v ->
  Forall (fun x => present x -> cb x = Ok (f x)) (items v) ->
  map_of callee (or_else v (VArr [])) cb = Ok (map f (items v)).
Proof.
  intros [Hmissing | (l & -> & Hl)] Hcb.
  - rewrite (or_else_missing _ Hmissing). by destruct v.
  - simpl in *. apply array_map_total.
    rewrite Forall_forall in *. intros x Hx. apply Hcb; auto.
Qed.

Lemma outcome_of_present o : present o -> outcome_of o = Ok (remapped_outcome o).
Proof.
  intros Ho. unfold outcome_of. by rewrite !(get_present _ _ Ho).
Qed.

Lemma market_of_present m :
  present m -> well_listed (read m "outcomes") ->
  market_of m = Ok (remapped_market m).
Proof.
  intros Hm Hos. unfold market_of. rewrite !(get_present _ _ Hm). simpl.
  rewrite (map_of_listed _ outcome_of remapped_outcome _ Hos); [done|].
  apply Forall_forall. intros o _. apply outcome_of_present.
Qed.

(** C7: the odds handler turns the markets of a probabilities response into
    a sequence in which each market keeps its upstream name as [key] and
    each outcome becomes [{label, probability}] from the upstream name and
    probability, markets and outcomes in upstream order; a missing markets
    list gives the empty sequence, and a missing outcomes list gives a
    market without outcomes, neither throws. *)
Theorem markets_are_remapped prob :
  let markets := get_opt (get_opt prob "probabilities") "markets" in
  (nullish markets = true -> markets_of prob = Ok [])
  /\ (forall m, present m -> nullish (read m "outcomes") = true ->
        market_of m = Ok {| key := read m "name"; outcomes := [] |})
  /\ (well_listed markets ->
      Forall (fun m => well_listed (read m "outcomes")) (items markets) ->
      markets_of prob = Ok (map remapped_market (items markets))).
Proof.
  intros markets. split_and!.
  - intros Hmissing. unfold markets_of. fold markets.
    by rewrite (or_else_missing _ Hmissing).
  - intros m Hm Hos. rewrite (market_of_present m Hm); [|by left].
    unfold remapped_market. by destruct (read m "outcomes").
  - intros Hms Hos. unfold markets_of. fold markets.
    apply map_of_listed; [done|].
    rewrite Forall_forall in *. intros m Hin Hm.
    apply market_of_present; auto.
Qed.

Lemma append_cons a s s' : String a s +:+ s' = String a (s +:+ s').
Proof. reflexivity. Qed.

Lemma prefix_spec n s :
  String.prefix n s = true <-> exists post, s = n +:+ post.
Proof.
  revert s. induction n as [| a n IH]; intros [| b s]; simpl.
  - split; [by exists "" | done].
  - split; [by exists (String b s) | done].
  - split; [done | by intros (post & [=])].
  - destruct (Ascii.ascii_dec a b) as [-> | Hne].
    + rewrite IH. split; intros (post & E); exists post.
      * by rewrite append_cons, E.
      * rewrite append_cons in E. congruence.
    + split; [done | intros (post & E)]. rewrite append_cons in E. congruence.
Qed.

Lemma includes_spec s n : includes s n = true <-> contains s n.
Proof.
  unfold contains. induction s as [| a s IH].
  - change (includes "" n) with (String.prefix n "" || false).
    rewrite orb_false_r, prefix_spec. split.
    + intros (post & E). by exists "", post.
    + intros (pre & post & E). destruct pre; [|done]. by exists post.
  - change (includes (String a s) n)
      with (String.prefix n (String a s) || includes s n).
    rewrite orb_true_iff, prefix_spec, IH. split.
    + intros [(post & E) | (pre & post & E)].
      * by exists "", post.
      * exists (String a pre), post. by rewrite append_cons, E.
    + intros (pre & post & E). destruct pre as [| b pre].
      * left. by exists post.
      * right. exists pre, post. rewrite append_cons in E. congruence.
Qed.

Lemma passes_b_spec p name : passes_b p name = true <-> passes p name.
Proof.
  unfold passes_b, passes. destruct p as [f|]; [|split; [by intros _ ? [=] | done]].
  destruct (given (Some f)) eqn:Hgiven; [|split; [by intros _ ? _ [=] | done]].
  split.
  - intros H ? [= <-] _. destruct name; try done.
    destruct (String_ f) as [text | e]; [|done].
    apply includes_spec in H. eauto.
  - intros H. destruct (H f eq_refl eq_refl) as (s & text & -> & -> & Hs).
    by apply includes_spec.
Qed.

Lemma array_filter_total {A} (cb : A -> result bool) (f : A -> bool) l :
  Forall (fun x => cb x = Ok (f x)) l ->
  array_filter cb l = Ok (List.filter f l).
Proof.
  induction 1 as [| x l Hx _ IH]; simpl; [done|]. by rewrite Hx, IH.
Qed.

Lemma filter_by_passes p expr field ms :
  has_text p ->
  Forall (fun m => exists s, field m = VStr s) ms ->
  filter_by p expr field ms
  = Ok (List.filter (fun m => passes_b p (field m)) ms).
Proof.
  intros Htext Hms. unfold filter_by, passes_b. destruct p as [f|].
  - destruct (given (Some f)) eqn:Hgiven.
    + destruct (Htext f eq_refl Hgiven) as [text Hf].
      apply array_filter_total. eapply Forall_impl; [done|].
      intros m (s & ->). simpl. by rewrite Hf.
    + clear Hms. induction ms as [| m ms IH]; simpl; congruence.
  - clear Hms. induction ms as [| m ms IH]; simpl; congruence.
Qed.

(** C5: from the mapped summaries on, for filter values that have a text,
    the match-search handler keeps exactly the summaries whose home-team
    name contains the given [home] text and whose away-team name contains
    the given [away] text, both sides lower-cased, the home filter applied
    first, the retained summaries in their upstream order; it answers with
    [{date, count, matches}], [count] being the number of retained
    summaries. *)
Theorem filters_keep_matching_summaries q ms :
  Forall string_named ms ->
  has_text (Query.home q) ->
  has_text (Query.away q) ->
  exists keep_home keep_away : MatchSummary -> bool,
    (forall m, keep_home m = true <-> passes (Query.home q) (home m))
    /\ (forall m, keep_away m = true <-> passes (Query.away q) (away m))
    /\ let kept := List.filter keep_away (List.filter keep_home ms) in
       respond (filtered q ms)
       = {| code := 200;
            sent := MatchesBody (Query.date q) (length kept) kept |}.
Proof.
  intros Hms Hhome Haway.
  exists (fun m => passes_b (Query.home q) (home m)),
         (fun m => passes_b (Query.away q) (away m)).
  split_and!; try (intros m; apply passes_b_spec).
  unfold filtered.
  rewrite (filter_by_passes (Query.home q) "m.home" home ms); simpl;
    [| done |].
  - rewrite filter_by_passes; [done | done |].
    apply Forall_forall. intros m Hin.
    apply list_elem_of_In, filter_In in Hin as [Hin _].
    apply list_elem_of_In in Hin.
    rewrite Forall_forall in Hms. destruct (Hms m Hin) as (h & a & _ & Ha).
    eauto.
  - eapply Forall_impl; [done|]. intros m (h & a & Hh & _). eauto.
Qed.

(** What the odds handler makes of a summary with no entry for a
    qualifier: the lookup is the one of the match search, but nothing
    replaces the [undefined] it yields. *)
Lemma odds_name_without_entry sum q :
  let cs := get_opt (get_opt sum "sport_event") "competitors" in
  well_listed cs ->
  (forall c, c ∈ items cs -> ~ qualified q c) ->
  competitor_name "sum?.sport_event" (get_opt sum "sport_event") q = Ok VUndef.
Proof.
  intros cs [Hmissing | (l & Hl & Hentries)] Hnone; unfold competitor_name;
    fold cs.
  - by destruct cs.
  - rewrite Hl in *. simpl in *. rewrite (array_find_entries q l Hentries).
    by rewrite (find_none_qualified _ _ Hnone).
Qed.

Lemma search_matches_dated q s date text :
  Query.date q = Some date -> given (Some date) = true ->
  String_ date = Ok text ->
  search_matches q s
  = (respond (data <- fst (getJsonWithCache (schedules_url text) s) ;;
              search_body q data),
     snd (getJsonWithCache (schedules_url text) s)).
Proof.
  intros Hdate Hgiven Htext. unfold search_matches.
  rewrite Hdate, Hgiven, Htext. by destruct (getJsonWithCache _ s).
Qed.

Lemma search_matches_unconvertible q s date e :
  Query.date q = Some date -> given (Some date) = true ->
  String_ date = Throw e ->
  search_matches q s = ({| code := 500; sent := ErrorBody (message e) |}, s).
Proof.
  intros Hdate Hgiven Htext. unfold search_matches.
  by rewrite Hdate, Hgiven, Htext.
Qed.

(** ** The cache-fetch unit: what a call does to the process *)

Lemma fresh_or_not (cache : gmap string entry) url now :
  (exists hit, cache !! url = Some hit /\ now - t hit < 30000)
  \/ absent_or_expired cache url now.
Proof.
  destruct (cache !! url) as [hit|] eqn:Hget; [|by right; left].
  destruct (Z.lt_ge_cases (now - t hit) 30000).
  - left. eauto.
  - right. right. eauto.
Qed.

Lemma served_hit url s hit :
  CACHE s !! url = Some hit -> clock s - t hit < 30000 ->
  served_from_cache url s = true.
Proof.
  intros Hget Hage. unfold served_from_cache.
  by rewrite (start_hit url s hit Hget Hage).
Qed.

Lemma served_miss url s :
  absent_or_expired (CACHE s) url (clock s) -> served_from_cache url s = false.
Proof.
  intros Hmiss. unfold served_from_cache. by rewrite (start_miss url s Hmiss).
Qed.

Lemma call_on_fresh url s hit :
  CACHE s !! url = Some hit -> clock s - t hit < 30000 ->
  getJsonWithCache url s = (Ok (d hit), s).
Proof.
  intros Hget Hage. unfold getJsonWithCache.
  by rewrite (start_hit url s hit Hget Hage).
Qed.

(** The three ways a call ends. *)
Lemma getJsonWithCache_cases url s :
  let x := upstream (length (fetched s)) url in
  (exists hit, CACHE s !! url = Some hit /\ clock s - t hit < 30000
               /\ getJsonWithCache url s = (Ok (d hit), s))
  \/ (absent_or_expired (CACHE s) url (clock s)
      /\ exists data, received (outcome x) = Ok data
          /\ getJsonWithCache url s
             = (Ok data, CACHE_set url {| t := clock s; d := data |}
                           (tick (elapsed x) (request url s))))
  \/ (absent_or_expired (CACHE s) url (clock s)
      /\ exists e, received (outcome x) = Throw e
          /\ getJsonWithCache url s
             = (Throw e, tick (elapsed x) (request url s))).
Proof.
  intros x. destruct (fresh_or_not (CACHE s) url (clock s))
    as [(hit & Hget & Hage) | Hmiss].
  - left. exists hit. split_and!; [done..|]. by apply call_on_fresh.
  - right. unfold getJsonWithCache. rewrite (start_miss url s Hmiss).
    fold x. unfold settle.
    destruct (received (outcome x)) as [data | e]; [left | right]; eauto.
Qed.

(** X1: a call reads and writes the entry of its own URL only: the entry of
    every other URL is what it was. *)
Theorem other_entries_are_untouched url other s :
  other <> url ->
  CACHE (snd (getJsonWithCache url s)) !! other = CACHE s !! other.
Proof.
  intros Hne.
  destruct (getJsonWithCache_cases url s)
    as [(hit & _ & _ & ->) | [(_ & data & _ & ->) | (_ & e & _ & ->)]];
    simpl; [done | | done].
  by rewrite lookup_insert_ne.
Qed.

(** X2: a call never removes an entry: every URL cached before the call is
    cached after it, whatever the call's outcome. *)
Theorem cache_never_shrinks url s :
  dom (CACHE s) ⊆ dom (CACHE (snd (getJsonWithCache url s))).
Proof.
  destruct (getJsonWithCache_cases url s)
    as [(hit & _ & _ & ->) | [(_ & data & _ & ->) | (_ & e & _ & ->)]];
    simpl; [done | | done].
  apply dom_insert_subseteq.
Qed.

(** X3: a call served from the cache hands nothing to [fetch]; any other
    call hands it exactly its URL, once, also when the request fails. *)
Theorem one_fetch_per_miss url s :
  fetched (snd (getJsonWithCache url s))
  = if served_from_cache url s then fetched s
    else (fetched s ++ [url])%list.
Proof.
  destruct (getJsonWithCache_cases url s)
    as [(hit & Hget & Hage & ->) | [(Hmiss & data & _ & ->)
                                   | (Hmiss & e & _ & ->)]]; simpl.
  - by rewrite (served_hit url s hit Hget Hage).
  - by rewrite (served_miss url s Hmiss).
  - by rewrite (served_miss url s Hmiss).
Qed.

(** X4: what a successful call returns is what the cache then holds for the
    URL, and a further call, made while that entry is younger than 30,000
    ms, returns the same payload and changes nothing. *)
Theorem returned_payload_is_cached url s data :
  fst (getJsonWithCache url s) = Ok data ->
  let s' := snd (getJsonWithCache url s) in
  exists e,
    CACHE s' !! url = Some e
    /\ d e = data
    /\ forall later,
         clock s' + later - t e < 30000 ->
         getJsonWithCache url (tick later s') = (Ok data, tick later s').
Proof.
  destruct (getJsonWithCache_cases url s)
    as [(hit & Hget & Hage & ->) | [(_ & data' & _ & ->) | (_ & e & _ & ->)]];
    simpl; [intros [= <-] | intros [= ->] | done].
  - exists hit. split_and!; [done..|]. intros later Hlater.
    by apply (call_on_fresh url (tick later s) hit).
  - eexists. rewrite lookup_insert_eq. split_and!; [done..|].
    intros later Hlater.
    apply (call_on_fresh url _ {| t := clock s; d := data |}); [|done].
    simpl. by rewrite lookup_insert_eq.
Qed.

(** X5: when the clock does not run backwards during the request, a call
    keeps every cached timestamp at or before the clock. *)
Theorem timestamps_stay_in_past url s :
  timestamps_in_past s ->
  0 <= elapsed (upstream (length (fetched s)) url) ->
  timestamps_in_past (snd (getJsonWithCache url s)).
Proof.
  intros Hpast Hforward.
  destruct (getJsonWithCache_cases url s)
    as [(hit & _ & _ & ->) | [(_ & data & _ & ->) | (_ & e & _ & ->)]];
    simpl; [done | |]; intros k e' Hk; simpl in *.
  - destruct (decide (k = url)) as [-> | Hne].
    + rewrite lookup_insert_eq in Hk. injection Hk as <-. simpl. lia.
    + rewrite lookup_insert_ne in Hk by done. specialize (Hpast k e' Hk). lia.
  - specialize (Hpast k e' Hk). lia.
Qed.

(** ** The match search: further properties *)

Lemma search_matches_undated q s :
  given (Query.date q) = false ->
  search_matches q s
  = ({| code := 400; sent := ErrorBody "Falta ?date=YYYY-MM-DD" |}, s).
Proof.
  intros Hdate. unfold search_matches.
  destruct (Query.date q); [by rewrite Hdate | done].
Qed.

Lemma given_some p : given p = true -> exists v, p = Some v.
Proof. destruct p; [eauto | done]. Qed.

Lemma respond_code r : code (respond r) = 200%N \/ code (respond r) = 500%N.
Proof. destruct r; auto. Qed.

(** X6: the match search answers 400 exactly when [date] is absent or the
    empty string, and then it leaves the process as it was; with any other
    [date] the status is 200 or 500. *)
Theorem search_status q s :
  (code (fst (search_matches q s)) = 400%N <-> given (Query.date q) = false)
  /\ (given (Query.date q) = false -> snd (search_matches q s) = s)
  /\ (given (Query.date q) = true ->
      code (fst (search_matches q s)) = 200%N
      \/ code (fst (search_matches q s)) = 500%N).
Proof.
  destruct (given (Query.date q)) eqn:Hgiven.
  - destruct (given_some _ Hgiven) as [date Hdate].
    assert (Hgiven' : given (Some date) = true) by by rewrite <- Hdate.
    assert (Hcode : code (fst (search_matches q s)) = 200%N
                    \/ code (fst (search_matches q s)) = 500%N).
    { destruct (String_ date) as [text | e] eqn:Htext.
      - rewrite (search_matches_dated q s date text Hdate Hgiven' Htext).
        apply respond_code.
      - rewrite (search_matches_unconvertible q s date e Hdate Hgiven' Htext).
        by right. }
    split_and!; [| done | done].
    split; [| done]. intros H400.
    destruct Hcode as [H | H]; rewrite H in H400; discriminate.
  - rewrite (search_matches_undated q s Hgiven). by split_and!.
Qed.

Lemma filter_by_nil p expr field : filter_by p expr field [] = Ok [].
Proof. unfold filter_by. destruct p; [by destruct (given _) | done]. Qed.

(** X7: when the schedule holds no events (the [sport_events] list is
    missing, falsy or empty), a search whose date has a text answers 200
    with count 0 and no matches, whatever the filters. *)
Theorem no_events_no_matches q s date text data :
  Query.date q = Some date ->
  given (Some date) = true ->
  String_ date = Ok text ->
  fst (getJsonWithCache (schedules_url text) s) = Ok data ->
  truthy (get_opt data "sport_events") = false
  \/ get_opt data "sport_events" = VArr [] ->
  fst (search_matches q s)
  = {| code := 200; sent := MatchesBody (Some date) 0 [] |}.
Proof.
  intros Hdate Hgiven Htext Hdata Hnone.
  rewrite (search_matches_dated q s date text Hdate Hgiven Htext). simpl.
  rewrite Hdata. simpl. unfold search_body.
  assert (or_else (get_opt data "sport_events") (VArr []) = VArr []) as ->.
  { unfold or_else. destruct Hnone as [H | H]; by rewrite H. }
  simpl. unfold filtered. rewrite filter_by_nil. simpl.
  rewrite filter_by_nil. simpl. by rewrite Hdate.
Qed.

(** X8: a search whose date has a text hands [fetch] at most one URL, the
    schedules URL of that text, and none when that URL is fresh in the
    cache; the cache entries of all other URLs are what they were. *)
Theorem search_fetches_only_the_schedule q s date text :
  Query.date q = Some date ->
  given (Some date) = true ->
  String_ date = Ok text ->
  let url := schedules_url text in
  let s' := snd (search_matches q s) in
  fetched s' = (if served_from_cache url s then fetched s
                else (fetched s ++ [url])%list)
  /\ forall other, other <> url -> CACHE s' !! other = CACHE s !! other.
Proof.
  intros Hdate Hgiven Htext url s'. unfold s'.
  rewrite (search_matches_dated q s date text Hdate Hgiven Htext). simpl.
  fold url.
  destruct (getJsonWithCache_cases url s)
    as [(hit & Hget & Hage & ->) | [(Hmiss & data & _ & ->)
                                   | (Hmiss & e & _ & ->)]]; simpl.
  - by rewrite (served_hit url s hit Hget Hage).
  - rewrite (served_miss url s Hmiss). split; [done|].
    intros other Hne. by rewrite lookup_insert_ne.
  - by rewrite (served_miss url s Hmiss).
Qed.

Lemma coalesce_empty v : nullish (coalesce v (VStr "")) = false.
Proof. by destruct v. Qed.

Lemma summary_of_fully_named ev m : summary_of ev = Ok m -> fully_named m.
Proof.
  unfold summary_of.
  destruct (competitor_name "ev" ev "home") as [h | e]; [|done].
  destruct (competitor_name "ev" ev "away") as [a | e]; [|done].
  simpl. intros [= <-]. split; apply coalesce_empty.
Qed.

Lemma array_filter_keeps {A} (P : A -> Prop) (cb : A -> result bool) l l' :
  array_filter cb l = Ok l' -> Forall P l -> Forall P l'.
Proof.
  revert l'. induction l as [| x l IH]; intros l'; simpl.
  - by intros [= <-].
  - destruct (cb x) as [b | e]; [|done]. simpl.
    destruct (array_filter cb l) as [ys | e]; [|done]. simpl.
    intros [= <-]. inversion 1; subst. destruct b; [constructor|]; auto.
Qed.

Lemma filter_by_keeps (P : MatchSummary -> Prop) p expr field ms ms' :
  filter_by p expr field ms = Ok ms' -> Forall P ms -> Forall P ms'.
Proof.
  unfold filter_by. destruct p as [f|]; [|by intros [= <-]].
  destruct (given (Some f)); [|by intros [= <-]].
  apply array_filter_keeps.
Qed.

(** X9: in every list of matches the search sends, [count] is the number of
    matches, [date] is the parameter as received, and no match lacks a home
    or an away name: each is a value other than [undefined] and [null]. *)
Theorem sent_matches_are_counted_and_named q s date n ms :
  sent (fst (search_matches q s)) = MatchesBody date n ms ->
  date = Query.date q /\ n = length ms /\ Forall fully_named ms.
Proof.
  destruct (given (Query.date q)) eqn:Hgiven;
    [| by rewrite (search_matches_undated q s Hgiven)].
  destruct (given_some _ Hgiven) as [dt Hdate].
  assert (Hgiven' : given (Some dt) = true) by by rewrite <- Hdate.
  destruct (String_ dt) as [text | e] eqn:Htext;
    [| by rewrite (search_matches_unconvertible q s dt e Hdate Hgiven' Htext)].
  rewrite (search_matches_dated q s dt text Hdate Hgiven' Htext).
  simpl. destruct (fst (getJsonWithCache _ s)) as [data | e]; [|done].
  simpl. unfold search_body.
  destruct (map_of _ _ summary_of) as [all | e] eqn:Hall; [|done].
  simpl. unfold filtered.
  destruct (filter_by (Query.home q) "m.home" home all) as [hs | e] eqn:Hh;
    [|done].
  simpl.
  destruct (filter_by (Query.away q) "m.away" away hs) as [kept | e] eqn:Ha;
    [|done].
  simpl. intros [= <- <- <-]. split_and!; [done..|].
  apply (filter_by_keeps _ _ _ _ _ _ Ha), (filter_by_keeps _ _ _ _ _ _ Hh).
  unfold map_of in Hall. destruct (or_else _ _) as [| | | | | evs |]; try done.
  apply array_map_each in Hall. clear -Hall.
  induction Hall as [| ev m evs all Hm _ IH]; constructor; [|done].
  by apply summary_of_fully_named in Hm.
Qed.

Lemma array_map_first_throw {B} (cb : value -> result B) before x after e0 :
  Forall (fun y => is_ok (cb y) = true) before ->
  cb x = Throw e0 ->
  array_map cb (before ++ x :: after) = Throw e0.
Proof.
  intros Hbefore Hx. induction Hbefore as [| y before Hy _ IH]; simpl.
  - by rewrite Hx.
  - destruct (cb y); [|done]. simpl. by rewrite IH.
Qed.

Lemma null_competitor_throws ev rest :
  get_opt ev "competitors" = VArr (VNull :: rest) ->
  summary_of ev
  = Throw (TypeError "Cannot read properties of null (reading 'qualifier')").
Proof.
  intros Hcs. unfold summary_of, competitor_name. by rewrite Hcs.
Qed.

(** X10: the search sends no partial list: when the mapping of an event of
    the schedule throws, the events before it mapping without error, the
    whole request is answered 500 with the message of that error. *)
Theorem one_failing_event_fails_the_search
    q s date text data before ev after e0 :
  Query.date q = Some date ->
  given (Some date) = true ->
  String_ date = Ok text ->
  fst (getJsonWithCache (schedules_url text) s) = Ok data ->
  get_opt data "sport_events" = VArr (before ++ ev :: after) ->
  Forall (fun x => is_ok (summary_of x) = true) before ->
  summary_of ev = Throw e0 ->
  fst (search_matches q s)
  = {| code := 500; sent := ErrorBody (message e0) |}.
Proof.
  intros Hdate Hgiven Htext Hdata Hevs Hbefore Hev.
  rewrite (search_matches_dated q s date text Hdate Hgiven Htext). simpl.
  rewrite Hdata. simpl. rewrite (search_body_maps_events q data _ Hevs).
  by rewrite (array_map_first_throw summary_of before ev after e0 Hbefore Hev).
Qed.

(** X11: a non-success status of the upstream is relayed: a search whose
    date has a text answers 500 with the message
    "<status> <statusText>: <body text>", and the cache map is what it
    was. *)
Theorem upstream_status_is_relayed q s date day r body :
  Query.date q = Some date ->
  given (Some date) = true ->
  String_ date = Ok day ->
  let url := schedules_url day in
  absent_or_expired (CACHE s) url (clock s) ->
  outcome (upstream (length (fetched s)) url) = Responded r ->
  ok r = false ->
  text r = Ok body ->
  fst (search_matches q s)
  = {| code := 500;
       sent := ErrorBody (pretty (status r) +:+ " " +:+ statusText r
                            +:+ ": " +:+ body) |}
  /\ CACHE (snd (search_matches q s)) = CACHE s.
Proof.
  intros Hdate Hgiven Hday url Hmiss Hout Hok Hbody.
  rewrite (search_matches_dated q s date day Hdate Hgiven Hday). fold url.
  unfold getJsonWithCache. rewrite (start_miss url s Hmiss).
  unfold settle, received. rewrite Hout, Hok, Hbody. by simpl.
Qed.

Lemma array_map_returns {B} (cb : value -> result B) l :
  Forall (fun x => exists y, cb x = Ok y) l -> exists ys, array_map cb l = Ok ys.
Proof.
  induction 1 as [| x l [y Hx] _ [ys IH]]; simpl; [eauto|].
  rewrite Hx, IH. simpl. eauto.
Qed.

Lemma summary_of_returns ev :
  well_listed (get_opt ev "competitors") -> exists m, summary_of ev = Ok m.
Proof.
  intros Hcs. unfold summary_of.
  destruct (competitor_name_resolves "ev" ev "home" Hcs) as (h & -> & _).
  destruct (competitor_name_resolves "ev" ev "away" Hcs) as (a & -> & _).
  simpl. eauto.
Qed.

(** X20: the whole match search.  When the date and the given filters have
    a text, and the schedule arrives and has the upstream shape (events
    missing or a list of entries, each with competitors missing or a list
    of entries whose names are strings), the request is answered 200 with
    the date as received and the summaries of the events, one per event in
    upstream order, thinned out by the home filter and then the away
    filter; [count] is their number. *)
Theorem search_answer q s date text data :
  Query.date q = Some date ->
  given (Some date) = true ->
  String_ date = Ok text ->
  has_text (Query.home q) ->
  has_text (Query.away q) ->
  fst (getJsonWithCache (schedules_url text) s) = Ok data ->
  let events := get_opt data "sport_events" in
  well_listed events ->
  Forall (fun ev => well_listed (get_opt ev "competitors")
                    /\ Forall string_or_no_name
                         (items (get_opt ev "competitors")))
    (items events) ->
  exists all,
    Forall2 (fun ev m => summary_of ev = Ok m) (items events) all
    /\ let kept :=
         List.filter (fun m => passes_b (Query.away q) (away m))
           (List.filter (fun m => passes_b (Query.home q) (home m)) all) in
       fst (search_matches q s)
       = {| code := 200; sent := MatchesBody (Some date) (length kept) kept |}.
Proof.
  intros Hdate Hgiven Htext Hhome Haway Hdata events Hevents Hshape.
  assert (Hall : exists all,
            map_of "(data?.sport_events || []).map" (or_else events (VArr []))
              summary_of = Ok all
            /\ array_map summary_of (items events) = Ok all).
  { destruct Hevents as [Hmissing | (evs & Hevs & _)].
    - rewrite (or_else_missing _ Hmissing). exists []. by destruct events.
    - rewrite Hevs in *. simpl in *.
      destruct (array_map_returns summary_of evs) as [all Hall]; [|eauto].
      eapply Forall_impl; [exact Hshape|]. simpl.
      intros ev [Hcs _]. by apply summary_of_returns. }
  destruct Hall as (all & Hmap & Hall). exists all.
  apply array_map_each in Hall. split; [done|]. simpl.
  assert (Hnamed : Forall string_named all).
  { clear -Hall Hshape. induction Hall as [| ev m evs all Hm _ IH];
      [constructor|].
    inversion Hshape as [| ? ? [Hcs Hnames] Hrest]; subst.
    constructor; [| by apply IH].
    by apply (summary_of_string_named ev). }
  rewrite (search_matches_dated q s date text Hdate Hgiven Htext). simpl.
  rewrite Hdata. simpl. unfold search_body. fold events. rewrite Hmap. simpl.
  unfold filtered.
  rewrite (filter_by_passes (Query.home q) "m.home" home all); simpl;
    [| done |].
  - rewrite filter_by_passes; [by rewrite Hdate | done |].
    apply Forall_forall. intros m Hin.
    apply list_elem_of_In, filter_In in Hin as [Hin _].
    apply list_elem_of_In in Hin.
    rewrite Forall_forall in Hnamed.
    destruct (Hnamed m Hin) as (h & a & _ & Ha). eauto.
  - eapply Forall_impl; [done|]. intros m (h & a & Hh & _). eauto.
Qed.

(** A conversion that throws throws the engine's one error, and only
    arrays and objects can. *)
Lemma String_throws :
  forall v e, String_ v = Throw e ->
              e = TypeError "Cannot convert object to primitive value".
Proof.
  fix IH 1. intros [s | items | fields] e.
  - discriminate.
  - simpl. induction items as [| x rest IHrest]; [discriminate|].
    destruct rest as [| y rest'].
    + apply IH.
    + destruct (String_ x) as [a | e'] eqn:Hx; simpl.
      * intros H. apply IHrest.
        destruct ((fix join (l : list qval) : result string :=
           match l with
           | [] => Ok ""
           | [x] => String_ x
           | x :: (_ :: _) as rest =>
               a <- String_ x ;; b <- join rest ;; Ok (a +:+ "," +:+ b)
           end) (y :: rest')) as [b | e''] eqn:Hj; [discriminate H|].
        simpl in H. exact H.
      * intros [= <-]. by apply (IH x).
  - simpl. destruct (own_key _ _); [by intros [= <-] | discriminate].
Qed.

Lemma String_throws_given v e : String_ v = Throw e -> given (Some v) = true.
Proof. by destruct v. Qed.

(** X21: a date that has no text (an object with an own [toString], or an
    array holding one, as [?date[toString]=x] gives) is answered 500 with
    the engine's conversion error; no URL is built, nothing is fetched and
    the process is left as it was. *)
Theorem unconvertible_date_is_refused q s date e :
  Query.date q = Some date ->
  String_ date = Throw e ->
  search_matches q s
  = ({| code := 500;
        sent := ErrorBody "Cannot convert object to primitive value" |}, s).
Proof.
  intros Hdate Hthrow.
  rewrite (search_matches_unconvertible q s date e Hdate
             (String_throws_given date e Hthrow) Hthrow).
  by rewrite (String_throws date e Hthrow).
Qed.


(** ** The upstream URLs as cache keys *)

Lemma append_inv_head a x y : a +:+ x = a +:+ y -> x = y.
Proof.
  induction a as [| c a IH]; [done|]. rewrite !append_cons. intros [=]. auto.
Qed.

Lemma length_append a b :
  String.length (a +:+ b) = (String.length a + String.length b)%nat.
Proof.
  induction a as [| c a IH]; [done|]. rewrite append_cons. simpl. by rewrite IH.
Qed.

Lemma append_inv_tail a x y : x +:+ a = y +:+ a -> x = y.
Proof.
  revert y. induction x as [| c x IH]; intros [| c' y] E.
  - done.
  - apply (f_equal String.length) in E. rewrite !length_append in E.
    simpl in E. lia.
  - apply (f_equal String.length) in E. rewrite !length_append in E.
    simpl in E. lia.
  - rewrite !append_cons in E. injection E as -> E. f_equal. by apply IH.
Qed.

Lemma hex_digit_unreserved n : (n < 16)%N -> unreserved (hex_digit n) = true.
Proof.
  intros Hn. assert (exists k, (k < 16)%nat /\ n = N.of_nat k) as (k & Hk & ->).
  { exists (N.to_nat n). split; [lia | by rewrite N2Nat.id]. }
  do 16 (destruct k as [|k]; [reflexivity|]). lia.
Qed.

Lemma hex_value_digit n : (n < 16)%N -> hex_value (hex_digit n) = n.
Proof.
  intros Hn. assert (exists k, (k < 16)%nat /\ n = N.of_nat k) as (k & Hk & ->).
  { exists (N.to_nat n). split; [lia | by rewrite N2Nat.id]. }
  do 16 (destruct k as [|k]; [reflexivity|]). lia.
Qed.

Lemma N_of_ascii_bound c : (N_of_ascii c < 256)%N.
Proof. destruct c as [[] [] [] [] [] [] [] []]; reflexivity. Qed.

Lemma encodeURIComponent_cons c s :
  encodeURIComponent (String c s)
  = if unreserved c then String c (encodeURIComponent s)
    else String "%" (String (hex_digit (N_of_ascii c / 16))
           (String (hex_digit (N_of_ascii c mod 16)) (encodeURIComponent s))).
Proof. simpl. by destruct (unreserved c). Qed.

(** Percent-encoding leaves unreserved characters, the percent sign and
    hexadecimal digits only. *)
Lemma encoded_characters s :
  Forall (fun c => unreserved c = true \/ c = "%"%char)
    (list_ascii_of_string (encodeURIComponent s)).
Proof.
  induction s as [| c s IH]; [constructor|].
  rewrite encodeURIComponent_cons. pose proof (N_of_ascii_bound c) as Hc.
  destruct (unreserved c) eqn:Hu; simpl.
  - constructor; [by left | done].
  - constructor; [by right |].
    constructor; [left; apply hex_digit_unreserved |].
    { apply N.Div0.div_lt_upper_bound. lia. }
    constructor; [left; apply hex_digit_unreserved | done].
    by apply N.mod_lt.
Qed.

Lemma encoded_no_separator s :
  Forall (fun c => separator c = false)
    (list_ascii_of_string (encodeURIComponent s)).
Proof.
  eapply Forall_impl; [apply encoded_characters|]. simpl.
  intros c [Hc | ->]; [|done].
  destruct (separator c) eqn:Hsep; [|done]. unfold separator in Hsep. simpl in Hsep.
  repeat (apply orb_prop in Hsep as [Hsep | Hsep];
          [apply Ascii.eqb_eq in Hsep; subst c; discriminate Hc |]).
  discriminate.
Qed.

(** Percent-encoding loses nothing: different texts are encoded
    differently. *)
Lemma encodeURIComponent_inj s s' :
  encodeURIComponent s = encodeURIComponent s' -> s = s'.
Proof.
  revert s'. induction s as [| c s IH]; intros [| c' s'].
  - done.
  - rewrite encodeURIComponent_cons. by destruct (unreserved c').
  - rewrite encodeURIComponent_cons. by destruct (unreserved c).
  - rewrite !encodeURIComponent_cons.
    destruct (unreserved c) eqn:Hu, (unreserved c') eqn:Hu'.
    + intros [= -> E]. f_equal. auto.
    + intros [= -> _]. discriminate Hu.
    + intros [= <- _]. discriminate Hu'.
    + intros [= Hhi Hlo E]. f_equal; [|auto].
      pose proof (N_of_ascii_bound c). pose proof (N_of_ascii_bound c').
      apply (f_equal hex_value) in Hhi, Hlo.
      rewrite !hex_value_digit in Hhi, Hlo;
        try (by apply N.mod_lt); try (apply N.Div0.div_lt_upper_bound; lia).
      rewrite <- (ascii_N_embedding c), <- (ascii_N_embedding c').
      f_equal. rewrite (N.div_mod (N_of_ascii c) 16) by done.
      rewrite (N.div_mod (N_of_ascii c') 16) by done. congruence.
Qed.

(** Two texts without a slash, each followed by a slash, split the same way. *)
Lemma split_at_slash u v r r' :
  Forall (fun c => separator c = false) (list_ascii_of_string u) ->
  Forall (fun c => separator c = false) (list_ascii_of_string v) ->
  u +:+ String "/" r = v +:+ String "/" r' ->
  u = v /\ r = r'.
Proof.
  revert v. induction u as [| c u IH]; intros [| c' v] Hu Hv E.
  - by injection E.
  - rewrite append_cons in E. injection E as <- _.
    simpl in Hv. by inversion Hv.
  - rewrite append_cons in E. injection E as -> _.
    simpl in Hu. by inversion Hu.
  - rewrite !append_cons in E. injection E as -> E.
    simpl in Hu, Hv. inversion Hu; inversion Hv; subst.
    destruct (IH v) as [-> ->]; auto.
Qed.

Lemma probUrl_sumUrl_differ id id' : probUrl id <> sumUrl id'.
Proof.
  unfold probUrl, sumUrl. intros E.
  do 3 apply append_inv_head in E.
  apply split_at_slash in E as [_ E]; [done | apply encoded_no_separator..].
Qed.

(** X12: the upstream URLs are faithful cache keys: the URL of a match's
    probabilities, of its summary, and of a date's schedule each determine
    the match id, respectively the date text, they were built from, and no
    URL of one kind is ever a URL of another kind. *)
Theorem urls_are_faithful_keys id id' date date' :
  (probUrl id = probUrl id' -> id = id')
  /\ (sumUrl id = sumUrl id' -> id = id')
  /\ (schedules_url date = schedules_url date' -> date = date')
  /\ probUrl id <> sumUrl id'
  /\ schedules_url date <> probUrl id
  /\ schedules_url date <> sumUrl id.
Proof.
  split_and!.
  - unfold probUrl. intros E. do 3 apply append_inv_head in E.
    by apply append_inv_tail, encodeURIComponent_inj in E.
  - unfold sumUrl. intros E. do 3 apply append_inv_head in E.
    by apply append_inv_tail, encodeURIComponent_inj in E.
  - unfold schedules_url. intros E. do 3 apply append_inv_head in E.
    by apply append_inv_tail, encodeURIComponent_inj in E.
  - apply probUrl_sumUrl_differ.
  - unfold schedules_url, probUrl. intros E. do 2 apply append_inv_head in E.
    rewrite !append_cons in E. discriminate E.
  - unfold schedules_url, sumUrl. intros E. do 2 apply append_inv_head in E.
    rewrite !append_cons in E. discriminate E.
Qed.


(** ** The odds handler: further properties *)

Lemma finish_state url p s :
  snd (finish url p s)
  = match stores url p with Some e => CACHE_set url e s | None => s end.
Proof.
  destruct p as [data | now n]; simpl; [done|].
  unfold settle. by destruct (received _).
Qed.

Lemma Promise_all_state ua ub a b s :
  let after url p s := snd (finish url p s) in
  snd (Promise_all ua ub a b s)
  = if due ua a <=? due ub b
    then after ub b (tick (due ub b - due ua a) (after ua a (tick (due ua a) s)))
    else after ua a (tick (due ua a - due ub b) (after ub b (tick (due ub b) s))).
Proof.
  simpl. unfold Promise_all. destruct (due ua a <=? due ub b).
  - destruct (finish ua a _) as [ra s1]. simpl.
    by destruct (finish ub b _) as [rb s2].
  - destruct (finish ub b _) as [rb s1]. simpl.
    by destruct (finish ua a _) as [ra s2].
Qed.

Lemma Promise_all_fetched ua ub a b s :
  fetched (snd (Promise_all ua ub a b s)) = fetched s.
Proof.
  rewrite Promise_all_state. simpl.
  destruct (due ua a <=? due ub b); rewrite !finish_state;
    by destruct (stores ua a), (stores ub b).
Qed.

Lemma Promise_all_cache ua ub a b s k :
  ua <> ub ->
  CACHE (snd (Promise_all ua ub a b s)) !! k
  = if decide (k = ua) then
      match stores ua a with Some e => Some e | None => CACHE s !! k end
    else if decide (k = ub) then
      match stores ub b with Some e => Some e | None => CACHE s !! k end
    else CACHE s !! k.
Proof.
  intros Hne. rewrite Promise_all_state. simpl.
  destruct (due ua a <=? due ub b); rewrite !finish_state;
    destruct (stores ua a) as [ea|], (stores ub b) as [eb|]; simpl;
    repeat case_decide; subst; try done;
    rewrite ?lookup_insert_eq, ?lookup_insert_ne by done;
    rewrite ?lookup_insert_eq, ?lookup_insert_ne by done; done.
Qed.

Lemma odds_calls_spec id s :
  let a := fst (start (probUrl id) s) in
  let s1 := snd (start (probUrl id) s) in
  odds_calls id s
  = ((a, fst (start (sumUrl id) s1)), snd (start (sumUrl id) s1))
  /\ CACHE s1 = CACHE s /\ clock s1 = clock s.
Proof.
  simpl. unfold odds_calls. destruct (start (probUrl id) s) as [a s1] eqn:Ha.
  simpl. split; [by destruct (start (sumUrl id) s1)|].
  unfold start in Ha. destruct (CACHE s !! probUrl id) as [hit|];
    [destruct (_ <? _)|]; by injection Ha as <- <-.
Qed.

Lemma start_state url s :
  CACHE (snd (start url s)) = CACHE s
  /\ clock (snd (start url s)) = clock s
  /\ fetched (snd (start url s))
     = if served_from_cache url s then fetched s
       else (fetched s ++ [url])%list.
Proof.
  unfold served_from_cache, start.
  destruct (CACHE s !! url) as [hit|]; [destruct (_ <? _)|]; done.
Qed.

Lemma served_same_cache url s s1 :
  CACHE s1 = CACHE s -> clock s1 = clock s ->
  served_from_cache url s1 = served_from_cache url s.
Proof.
  intros Hc Ht. unfold served_from_cache, start. rewrite Hc, Ht.
  destruct (CACHE s !! url) as [hit|]; [destruct (_ <? _)|]; done.
Qed.

(** X14: an odds request hands [fetch] its two URLs only, the probabilities
    URL before the summary URL, each at most once and neither when it is
    fresh in the cache; the cache entries of all other URLs are what they
    were. *)
Theorem odds_fetches_only_its_urls id s :
  let s' := snd (odds_match id s) in
  fetched s'
  = (fetched s
       ++ (if served_from_cache (probUrl id) s then [] else [probUrl id])
       ++ (if served_from_cache (sumUrl id) s then [] else [sumUrl id]))%list
  /\ forall other, other <> probUrl id -> other <> sumUrl id ->
       CACHE s' !! other = CACHE s !! other.
Proof.
  simpl. unfold odds_match.
  destruct (odds_calls_spec id s) as (-> & Hc & Ht).
  destruct (start_state (probUrl id) s) as (_ & _ & Hf1).
  destruct (start_state (sumUrl id) (snd (start (probUrl id) s)))
    as (Hc2 & _ & Hf2).
  rewrite (served_same_cache _ _ _ Hc Ht) in Hf2.
  destruct (Promise_all _ _ _ _ _) as [both s2] eqn:Hall. simpl.
  apply (f_equal snd) in Hall. simpl in Hall. subst s2. split.
  - rewrite Promise_all_fetched, Hf2, Hf1.
    destruct (served_from_cache (probUrl id) s),
             (served_from_cache (sumUrl id) s); simpl;
      by rewrite <- ?app_assoc, ?app_nil_r.
  - intros other Hp Hs.
    rewrite Promise_all_cache by apply probUrl_sumUrl_differ.
    rewrite !decide_False by done. by rewrite Hc2, Hc.
Qed.

Lemma start_pending url s :
  absent_or_expired (CACHE s) url (clock s) ->
  exists n, fst (start url s) = Pending (clock s) n.
Proof. intros Hmiss. rewrite (start_miss url s Hmiss). simpl. eauto. Qed.

Lemma stores_settled url now n v :
  settles_with url (Pending now n) = Ok v ->
  stores url (Pending now n) = Some {| t := now; d := v |}.
Proof. simpl. by intros ->. Qed.

(** X15: each of the two calls of an odds request that had to fetch and got
    its payload leaves it in the cache, stamped with the clock at the start
    of the request, whatever becomes of the other call: also when the other
    call fails and the request is answered 500. *)
Theorem fetched_half_stays_cached id s v :
  let calls := fst (odds_calls id s) in
  let s' := snd (odds_match id s) in
  (absent_or_expired (CACHE s) (probUrl id) (clock s) ->
   settles_with (probUrl id) (fst calls) = Ok v ->
   CACHE s' !! probUrl id = Some {| t := clock s; d := v |})
  /\ (absent_or_expired (CACHE s) (sumUrl id) (clock s) ->
      settles_with (sumUrl id) (snd calls) = Ok v ->
      CACHE s' !! sumUrl id = Some {| t := clock s; d := v |}).
Proof.
  simpl. unfold odds_match.
  destruct (odds_calls_spec id s) as (-> & Hc & Ht). simpl.
  destruct (Promise_all _ _ _ _ _) as [both s2] eqn:Hall. simpl.
  apply (f_equal snd) in Hall. simpl in Hall. subst s2.
  pose proof (probUrl_sumUrl_differ id id) as Hne.
  split; intros Hmiss Hok; rewrite Promise_all_cache by done.
  - rewrite decide_True by done.
    destruct (start_pending _ _ Hmiss) as [n Hn]. rewrite Hn in *.
    by rewrite (stores_settled _ _ _ _ Hok).
  - rewrite decide_False by done. rewrite decide_True by done.
    rewrite <- Hc, <- Ht in Hmiss.
    destruct (start_pending _ _ Hmiss) as [n Hn]. rewrite Hn in *.
    rewrite (stores_settled _ _ _ _ Hok). by rewrite Ht.
Qed.

Lemma tick_0 s : tick 0 s = s.
Proof. destruct s. unfold tick. simpl. f_equal. lia. Qed.

(** X16: when both URLs of an odds request are fresh in the cache, the
    request is answered from the two cached payloads alone: nothing is
    fetched and the process is left as it was. *)
Theorem odds_from_fresh_cache id s hp hs :
  CACHE s !! probUrl id = Some hp -> clock s - t hp < 30000 ->
  CACHE s !! sumUrl id = Some hs -> clock s - t hs < 30000 ->
  odds_match id s = (respond (odds_body id (d hp) (d hs)), s).
Proof.
  intros Hp Hpa Hs Hsa. unfold odds_match, odds_calls.
  rewrite (start_hit _ _ _ Hp Hpa), (start_hit _ _ _ Hs Hsa).
  unfold Promise_all. simpl. by rewrite !tick_0.
Qed.

(** X17: when both calls of an odds request deliver and the two responses
    have the upstream shape (competitors, markets and outcomes missing or
    lists of entries), the request is answered 200 with the match id as it
    came in the path, the summary's start time, two names and the remapped
    markets in upstream order. *)
Theorem odds_answer id s prob sum :
  let calls := fst (odds_calls id s) in
  let markets := get_opt (get_opt prob "probabilities") "markets" in
  settles_with (probUrl id) (fst calls) = Ok prob ->
  settles_with (sumUrl id) (snd calls) = Ok sum ->
  well_listed (get_opt (get_opt sum "sport_event") "competitors") ->
  well_listed markets ->
  Forall (fun m => well_listed (read m "outcomes")) (items markets) ->
  exists home away,
    competitor_name "sum?.sport_event" (get_opt sum "sport_event") "home"
    = Ok home
    /\ competitor_name "sum?.sport_event" (get_opt sum "sport_event") "away"
       = Ok away
    /\ fst (odds_match id s)
       = {| code := 200;
            sent := OddsBody id
                      (get_opt (get_opt sum "sport_event") "start_time")
                      home away (map remapped_market (items markets)) |}.
Proof.
  simpl. intros Hprob Hsum Hcs Hms Hos. unfold odds_match.
  destruct (odds_calls id s) as [[a b] s1]. simpl in *.
  destruct (Promise_all _ _ a b s1) as [both s2] eqn:Hall. simpl.
  apply (f_equal fst) in Hall. rewrite Promise_all_result in Hall.
  simpl in Hall. rewrite Hprob, Hsum in Hall. subst both. simpl.
  destruct (competitor_name_resolves "sum?.sport_event"
              (get_opt sum "sport_event") "home" Hcs) as (home & Hhome & _).
  destruct (competitor_name_resolves "sum?.sport_event"
              (get_opt sum "sport_event") "away" Hcs) as (away & Haway & _).
  exists home, away. split_and!; [done..|].
  unfold odds_body. rewrite Hhome, Haway. simpl.
  unfold markets_of.
  rewrite (map_of_listed _ market_of remapped_market _ Hms); [done|].
  rewrite Forall_forall in *. intros m Hin Hm.
  apply market_of_present; auto.
Qed.

(** X19: no handler ever evicts: a URL that is cached before a search or an
    odds request is still cached after it. *)
Theorem handlers_never_evict q id s url :
  is_Some (CACHE s !! url) ->
  is_Some (CACHE (snd (search_matches q s)) !! url)
  /\ is_Some (CACHE (snd (odds_match id s)) !! url).
Proof.
  intros Hurl. split.
  - destruct (given (Query.date q)) eqn:Hgiven;
      [| by rewrite (search_matches_undated q s Hgiven)].
    destruct (given_some _ Hgiven) as [date Hdate].
    assert (Hgiven' : given (Some date) = true) by by rewrite <- Hdate.
    destruct (String_ date) as [text | e0] eqn:Htext;
      [| by rewrite (search_matches_unconvertible q s date e0 Hdate Hgiven'
                       Htext)].
    rewrite (search_matches_dated q s date text Hdate Hgiven' Htext).
    simpl.
    destruct (getJsonWithCache_cases (schedules_url text) s)
      as [(hit & _ & _ & ->) | [(_ & data & _ & ->) | (_ & e & _ & ->)]];
      simpl; [done | | done].
    destruct (decide (url = schedules_url text)) as [-> | Hne].
    + by rewrite lookup_insert_eq.
    + by rewrite lookup_insert_ne.
  - unfold odds_match.
    destruct (odds_calls_spec id s) as (-> & Hc & _).
    destruct (start_state (sumUrl id) (snd (start (probUrl id) s)))
      as (Hc2 & _ & _).
    destruct (Promise_all _ _ _ _ _) as [both s2] eqn:Hall. simpl.
    apply (f_equal snd) in Hall. simpl in Hall. subst s2.
    rewrite Promise_all_cache by apply probUrl_sumUrl_differ.
    rewrite Hc2, Hc. repeat case_decide; repeat case_match; done.
Qed.

(** ** Start-up and the access gate *)

Lemma authorize_refusal secret path key r :
  authorize secret path key = Some r ->
  r = {| code := 401; sent := ErrorBody "Unauthorized" |}.
Proof.
  unfold authorize. destruct (_ || _); [done|].
  destruct (negb _); [by intros [= <-] | done].
Qed.

(** X18: on a server that got past start-up, the gate lets a request through
    exactly when its path is /healthz or /openapi.yaml or its X-API-Key
    header equals the configured secret; a request without the header, or
    with an empty one, to any other path is refused; and a refused request
    is answered 401 without the handler running, the process left as it
    was. *)
Theorem gate_of_a_started_server env path key :
  exits env = false ->
  let secret := Env.PROXY_API_KEY env in
  let refusal := {| code := 401; sent := ErrorBody "Unauthorized" |} in
  (authorize secret path key = None
   <-> path = "/healthz" \/ path = "/openapi.yaml" \/ key = secret)
  /\ (is_set key = false -> path <> "/healthz" -> path <> "/openapi.yaml" ->
      authorize secret path key = Some refusal)
  /\ (forall handler s,
        authorize secret path key <> None ->
        behind_gate secret path key handler s = (refusal, s)).
Proof.
  intros Hruns secret refusal.
  assert (Hiff : authorize secret path key = None
                 <-> path = "/healthz" \/ path = "/openapi.yaml" \/ key = secret).
  { unfold authorize.
    destruct (String.eqb_spec path "/healthz") as [-> | Hh]; simpl;
      [split; auto|].
    destruct (String.eqb_spec path "/openapi.yaml") as [-> | Ho]; simpl;
      [split; auto|].
    case_bool_decide; simpl; [split; auto|].
    split; [done | by intros [? | [? | ?]]]. }
  split_and!; [done | |].
  - intros Hkey Hh Ho.
    destruct (authorize secret path key) as [r|] eqn:Hr.
    + by rewrite (authorize_refusal _ _ _ _ Hr).
    + destruct (proj1 Hiff eq_refl) as [? | [? | ->]]; [done..|].
      unfold exits in Hruns. apply orb_false_elim in Hruns as [_ Hp].
      fold secret in Hp. by rewrite Hkey in Hp.
  - intros handler s Hr. unfold behind_gate.
    destruct (authorize secret path key) as [r|] eqn:Hr'; [|done].
    by rewrite (authorize_refusal _ _ _ _ Hr').
Qed.

(** The scheme of [baseUrlFrom] is never empty: the forwarded one when the
    header is there and not empty, "https" otherwise; a missing host header
    shows as the text "undefined". *)
Lemma baseUrlFrom_scheme x_forwarded_proto host :
  exists proto,
    baseUrlFrom x_forwarded_proto host
    = proto +:+ "://" +:+ default "undefined" host
    /\ proto <> ""
    /\ (x_forwarded_proto = Some proto
        \/ is_set x_forwarded_proto = false /\ proto = "https").
Proof.
  unfold baseUrlFrom, is_set. destruct x_forwarded_proto as [p|]; simpl.
  - destruct (String.eqb_spec p "") as [-> | Hp]; simpl.
    + exists "https". split_and!; [done | done | by right].
    + exists p. split_and!; [done | done | by left].
  - exists "https". split_and!; [done | done | by right].
Qed.

End Server.

(** ** The properties on the sample data *)

Lemma fresh_entry_is_returned_witness :
  CACHE Sample.warm !! "https://upstream/x.json" = Some Sample.cached
  /\ clock Sample.warm - t Sample.cached < 30000
  /\ getJsonWithCache Sample.down "https://upstream/x.json" Sample.warm
     = (Ok (d Sample.cached), Sample.warm).
Proof.
  assert (Hget : CACHE Sample.warm !! "https://upstream/x.json"
                 = Some Sample.cached) by reflexivity.
  assert (Hage : clock Sample.warm - t Sample.cached < 30000) by reflexivity.
  split_and!; [exact Hget | exact Hage |].
  exact (fresh_entry_is_returned Sample.down _ _ _ Hget Hage).
Defined.

Lemma failed_fetch_throws_and_stores_nothing_witness :
  absent_or_expired (CACHE Sample.cold) "https://upstream/x.json"
    (clock Sample.cold)
  /\ fetch_fails
       (outcome (Sample.down (length (fetched Sample.cold))
                   "https://upstream/x.json"))
  /\ exists e,
       fst (getJsonWithCache Sample.down "https://upstream/x.json" Sample.cold)
       = Throw e
       /\ CACHE (snd (getJsonWithCache Sample.down "https://upstream/x.json"
                        Sample.cold))
          = CACHE Sample.cold.
Proof.
  assert (Hold : absent_or_expired (CACHE Sample.cold)
                   "https://upstream/x.json" (clock Sample.cold)).
  { right. exists Sample.cached. split; [reflexivity | by vm_compute]. }
  assert (Hfail : fetch_fails
                    (outcome (Sample.down (length (fetched Sample.cold))
                                "https://upstream/x.json"))).
  { by apply non_success_status. }
  split_and!; [exact Hold | exact Hfail |].
  exact (failed_fetch_throws_and_stores_nothing Sample.down _ _ Hold Hfail).
Defined.

Lemma stored_timestamp_is_lookup_time_witness :
  let url := "https://upstream/x.json" in
  let s' := snd (getJsonWithCache Sample.upstream url Sample.cold) in
  absent_or_expired (CACHE Sample.cold) url (clock Sample.cold)
  /\ fst (getJsonWithCache Sample.upstream url Sample.cold)
     = Ok Sample.schedule
  /\ CACHE s' !! url = Some {| t := 1714590030000; d := Sample.schedule |}
  /\ clock s' = 1714590030000 + 250
  /\ forall later,
       served_from_cache url (tick later s') = true <-> later < 30000 - 250.
Proof.
  intros url s'.
  assert (Hold : absent_or_expired (CACHE Sample.cold) url (clock Sample.cold)).
  { right. exists Sample.cached. split; [reflexivity | by vm_compute]. }
  assert (Hok : fst (getJsonWithCache Sample.upstream url Sample.cold)
                = Ok Sample.schedule) by reflexivity.
  split_and!; [exact Hold | exact Hok | ..];
    apply (stored_timestamp_is_lookup_time Sample.upstream url Sample.cold
             Sample.schedule Hold Hok).
Defined.

Lemma missing_date_is_rejected_witness :
  let q := {| Query.date := None; Query.home := Some (QStr "real");
              Query.away := None |} in
  Query.date q = None
  /\ search_matches "KEY" "/soccer/trial/v4/es" Sample.lower Sample.upstream
       q Sample.boot
     = ({| code := 400; sent := ErrorBody "Falta ?date=YYYY-MM-DD" |},
        Sample.boot).
Proof.
  intros q. split; [reflexivity |].
  exact (missing_date_is_rejected "KEY" "/soccer/trial/v4/es" Sample.lower
           Sample.upstream q Sample.boot eq_refl).
Defined.

Lemma one_failed_call_fails_the_odds_witness :
  let key := "KEY" in
  let base := "/soccer/trial/v4/es" in
  let id := "sr:match:2" in
  let calls := fst (odds_calls key base id Sample.boot) in
  let e := Error "503 Service Unavailable: upstream down" in
  (settles_with Sample.probabilities_down (probUrl key base id) (fst calls)
   = Throw e
   /\ settles_with Sample.probabilities_down (sumUrl key base id) (snd calls)
      = Ok Sample.summary_without_home)
  /\ fst (odds_match key base Sample.probabilities_down id Sample.boot)
     = {| code := 500;
          sent := ErrorBody "503 Service Unavailable: upstream down" |}.
Proof.
  intros key base id calls e.
  assert (Hcalls :
    settles_with Sample.probabilities_down (probUrl key base id) (fst calls)
    = Throw e
    /\ settles_with Sample.probabilities_down (sumUrl key base id) (snd calls)
       = Ok Sample.summary_without_home) by (split; reflexivity).
  split; [exact Hcalls |].
  exact (one_failed_call_fails_the_odds key base Sample.probabilities_down id
           Sample.boot e Sample.summary_without_home (or_introl Hcalls)).
Defined.

Lemma filters_keep_matching_summaries_witness :
  let ms := [Sample.real_barcelona; Sample.sevilla_betis] in
  let q := Sample.home_real in
  Forall string_named ms
  /\ has_text (Query.home q)
  /\ has_text (Query.away q)
  /\ exists keep_home keep_away : MatchSummary -> bool,
       (forall m, keep_home m = true
                  <-> passes Sample.lower (Query.home q) (home m))
       /\ (forall m, keep_away m = true
                     <-> passes Sample.lower (Query.away q) (away m))
       /\ let kept := List.filter keep_away (List.filter keep_home ms) in
          respond (filtered Sample.lower q ms)
          = {| code := 200;
               sent := MatchesBody (Query.date q) (length kept) kept |}.
Proof.
  intros ms q.
  assert (Hms : Forall string_named ms).
  { repeat constructor; by eexists _, _. }
  assert (Hhome : has_text (Query.home q)).
  { intros f [= <-] _. by eexists. }
  assert (Haway : has_text (Query.away q)).
  { intros f [=]. }
  split_and!; [exact Hms | exact Hhome | exact Haway |].
  exact (filters_keep_matching_summaries Sample.lower q ms Hms Hhome Haway).
Defined.

Lemma summary_resolves_team_names_witness :
  let cs := get_opt Sample.away_only "competitors" in
  well_listed cs
  /\ exists m,
       summary_of Sample.away_only = Ok m
       /\ resolves "home" (items cs) (home m)
       /\ resolves "away" (items cs) (away m).
Proof.
  intros cs.
  assert (Hcs : well_listed cs).
  { right. eexists. split; [reflexivity |]. by repeat constructor. }
  split; [exact Hcs |].
  exact (summary_resolves_team_names Sample.away_only Hcs).
Defined.

Lemma markets_are_remapped_witness :
  let markets :=
    get_opt (get_opt Sample.probabilities "probabilities") "markets" in
  well_listed markets
  /\ Forall (fun m => well_listed (read m "outcomes")) (items markets)
  /\ markets_of Sample.probabilities
     = Ok (map remapped_market (items markets)).
Proof.
  intros markets.
  assert (Hms : well_listed markets).
  { right. eexists. split; [reflexivity |]. by repeat constructor. }
  assert (Hos : Forall (fun m => well_listed (read m "outcomes"))
                  (items markets)).
  { constructor; [| constructor; [| constructor]].
    - right. eexists. split; [reflexivity |]. by repeat constructor.
    - by left. }
  split_and!; [exact Hms | exact Hos |].
  exact (proj2 (proj2 (markets_are_remapped Sample.probabilities)) Hms Hos).
Defined.

(** C3: the odds handler on a summary whose home competitor is missing.  It
    does not throw, but the home team name it sends is [undefined], not the
    empty string; the mapping of the match search, on the same event, gives
    the empty string. *)
Theorem odds_sends_undefined_for_missing_home :
  (exists markets,
     fst (odds_match "KEY" "/soccer/trial/v4/es" Sample.upstream "sr:match:2"
            Sample.boot)
     = {| code := 200;
          sent := OddsBody "sr:match:2" (VStr "2024-05-01T21:00:00+00:00")
                    VUndef (VStr "Betis") markets |})
  /\ exists m, summary_of Sample.away_only = Ok m /\ home m = VStr "".
Proof. split; eexists; [| split]; reflexivity. Qed.

(** The end-to-end scenario of the specification: two events, [?home=real]. *)
Example search_home_real :
  fst (search_matches "KEY" "/soccer/trial/v4/es" Sample.lower Sample.upstream
         Sample.home_real Sample.boot)
  = {| code := 200;
       sent := MatchesBody (Some (QStr "2024-05-01")) 1
                 [Sample.real_barcelona] |}.
Proof. reflexivity. Qed.

(** A date with no upstream events. *)
Example search_no_events :
  fst (search_matches "KEY" "/soccer/trial/v4/es" Sample.lower
         (fun _ _ => Sample.answers (VObj []) 90)
         Sample.home_real Sample.boot)
  = {| code := 200; sent := MatchesBody (Some (QStr "2024-05-01")) 0 [] |}.
Proof. reflexivity. Qed.

(** A second call within the TTL makes no further request; a call after it
    makes exactly one. *)
Example second_call_is_served_from_cache :
  let url := "https://upstream/x.json" in
  let s1 := snd (getJsonWithCache Sample.upstream url Sample.boot) in
  let s2 := snd (getJsonWithCache Sample.upstream url (tick 29000 s1)) in
  let s3 := snd (getJsonWithCache Sample.upstream url (tick 1000 s2)) in
  fetched s1 = [url] /\ fetched s2 = [url] /\ fetched s3 = [url; url].
Proof. by vm_compute. Qed.

(** ** The further properties on the sample data *)

Lemma other_entries_are_untouched_witness :
  let url := "https://upstream/x.json" in
  let other := "https://upstream/y.json" in
  other <> url
  /\ CACHE (snd (getJsonWithCache Sample.upstream url Sample.cold)) !! other
     = CACHE Sample.cold !! other.
Proof.
  intros url other.
  assert (Hne : other <> url) by discriminate.
  split; [exact Hne |].
  exact (other_entries_are_untouched Sample.upstream url other Sample.cold Hne).
Defined.

Lemma returned_payload_is_cached_witness :
  let url := "https://upstream/x.json" in
  let s' := snd (getJsonWithCache Sample.upstream url Sample.boot) in
  fst (getJsonWithCache Sample.upstream url Sample.boot) = Ok Sample.schedule
  /\ exists e,
       CACHE s' !! url = Some e
       /\ d e = Sample.schedule
       /\ forall later,
            clock s' + later - t e < 30000 ->
            getJsonWithCache Sample.upstream url (tick later s')
            = (Ok Sample.schedule, tick later s').
Proof.
  intros url s'.
  assert (Hok : fst (getJsonWithCache Sample.upstream url Sample.boot)
                = Ok Sample.schedule) by reflexivity.
  split; [exact Hok |].
  exact (returned_payload_is_cached Sample.upstream url Sample.boot
           Sample.schedule Hok).
Defined.

Lemma timestamps_stay_in_past_witness :
  let url := "https://upstream/x.json" in
  timestamps_in_past Sample.cold
  /\ 0 <= elapsed (Sample.upstream (length (fetched Sample.cold)) url)
  /\ timestamps_in_past (snd (getJsonWithCache Sample.upstream url Sample.cold)).
Proof.
  intros url.
  assert (Hpast : timestamps_in_past Sample.cold).
  { intros k e Hk. unfold Sample.cold in Hk. simpl in Hk.
    apply lookup_singleton_Some in Hk as [_ <-]. by vm_compute. }
  assert (Hforward :
    0 <= elapsed (Sample.upstream (length (fetched Sample.cold)) url))
    by (by vm_compute).
  split_and!; [exact Hpast | exact Hforward |].
  exact (timestamps_stay_in_past Sample.upstream url Sample.cold Hpast Hforward).
Defined.

Lemma no_events_no_matches_witness :
  let empty := fun (_ : nat) (_ : string) => Sample.answers (VObj []) 90 in
  let date := QStr "2024-05-01" in
  Query.date Sample.home_real = Some date
  /\ given (Some date) = true
  /\ String_ date = Ok "2024-05-01"
  /\ fst (getJsonWithCache empty
            (schedules_url "KEY" "/soccer/trial/v4/es" "2024-05-01")
            Sample.boot)
     = Ok (VObj [])
  /\ truthy (get_opt (VObj []) "sport_events") = false
  /\ fst (search_matches "KEY" "/soccer/trial/v4/es" Sample.lower empty
            Sample.home_real Sample.boot)
     = {| code := 200; sent := MatchesBody (Some date) 0 [] |}.
Proof.
  intros empty date. split_and!; [reflexivity.. |].
  exact (no_events_no_matches "KEY" "/soccer/trial/v4/es" Sample.lower empty
           Sample.home_real Sample.boot date "2024-05-01" (VObj [])
           eq_refl eq_refl eq_refl eq_refl (or_introl eq_refl)).
Defined.

Lemma search_fetches_only_the_schedule_witness :
  let date := QStr "2024-05-01" in
  let url := schedules_url "KEY" "/soccer/trial/v4/es" "2024-05-01" in
  let s' := snd (search_matches "KEY" "/soccer/trial/v4/es" Sample.lower
                   Sample.upstream Sample.home_real Sample.boot) in
  Query.date Sample.home_real = Some date
  /\ given (Some date) = true
  /\ String_ date = Ok "2024-05-01"
  /\ fetched s' = (if served_from_cache url Sample.boot
                   then fetched Sample.boot
                   else (fetched Sample.boot ++ [url])%list)
  /\ forall other, other <> url ->
       CACHE s' !! other = CACHE Sample.boot !! other.
Proof.
  intros date url s'. split_and!; [reflexivity | reflexivity | reflexivity | ..];
    apply (search_fetches_only_the_schedule "KEY" "/soccer/trial/v4/es"
             Sample.lower Sample.upstream Sample.home_real Sample.boot date
             "2024-05-01" eq_refl eq_refl eq_refl).
Defined.

Lemma sent_matches_are_counted_and_named_witness :
  let date := Some (QStr "2024-05-01") in
  sent (fst (search_matches "KEY" "/soccer/trial/v4/es" Sample.lower
               Sample.upstream Sample.home_real Sample.boot))
  = MatchesBody date 1 [Sample.real_barcelona]
  /\ date = Query.date Sample.home_real
  /\ 1%nat = length [Sample.real_barcelona]
  /\ Forall fully_named [Sample.real_barcelona].
Proof.
  intros date. split; [reflexivity |].
  exact (sent_matches_are_counted_and_named "KEY" "/soccer/trial/v4/es"
           Sample.lower Sample.upstream Sample.home_real Sample.boot date 1
           [Sample.real_barcelona] eq_refl).
Defined.

Lemma one_failing_event_fails_the_search_witness :
  let broken := fun (_ : nat) (_ : string) =>
                  Sample.answers Sample.broken_schedule 90 in
  let date := QStr "2024-05-01" in
  let first := Sample.event "sr:match:1" "2024-05-01T19:00:00+00:00" "LaLiga"
                 "Real Madrid" "Barcelona" in
  get_opt Sample.broken_schedule "sport_events"
  = VArr ([first] ++ Sample.broken_event :: [])
  /\ Forall (fun x => is_ok (summary_of x) = true) [first]
  /\ summary_of Sample.broken_event
     = Throw (TypeError "Cannot read properties of null (reading 'qualifier')")
  /\ fst (search_matches "KEY" "/soccer/trial/v4/es" Sample.lower broken
            Sample.home_real Sample.boot)
     = {| code := 500;
          sent := ErrorBody
                    "Cannot read properties of null (reading 'qualifier')" |}.
Proof.
  intros broken date first.
  assert (Hbefore : Forall (fun x => is_ok (summary_of x) = true) [first])
    by (by repeat constructor).
  split_and!; [reflexivity | exact Hbefore | reflexivity |].
  exact (one_failing_event_fails_the_search "KEY" "/soccer/trial/v4/es"
           Sample.lower broken Sample.home_real Sample.boot date "2024-05-01"
           Sample.broken_schedule [first] Sample.broken_event [] _
           eq_refl eq_refl eq_refl eq_refl eq_refl Hbefore eq_refl).
Defined.

Lemma upstream_status_is_relayed_witness :
  let date := QStr "2024-05-01" in
  let url := schedules_url "KEY" "/soccer/trial/v4/es" "2024-05-01" in
  absent_or_expired (CACHE Sample.boot) url (clock Sample.boot)
  /\ String_ date = Ok "2024-05-01"
  /\ fst (search_matches "KEY" "/soccer/trial/v4/es" Sample.lower Sample.down
            Sample.home_real Sample.boot)
     = {| code := 500;
          sent := ErrorBody "503 Service Unavailable: upstream down" |}
  /\ CACHE (snd (search_matches "KEY" "/soccer/trial/v4/es" Sample.lower
                   Sample.down Sample.home_real Sample.boot))
     = CACHE Sample.boot.
Proof.
  intros date url.
  assert (Hmiss : absent_or_expired (CACHE Sample.boot) url
                    (clock Sample.boot)) by (by left).
  split_and!; [exact Hmiss | reflexivity | ..];
    apply (upstream_status_is_relayed "KEY" "/soccer/trial/v4/es" Sample.lower
             Sample.down Sample.home_real Sample.boot date "2024-05-01" _
             "upstream down" eq_refl eq_refl eq_refl Hmiss eq_refl eq_refl
             eq_refl).
Defined.

Lemma fetched_half_stays_cached_witness :
  let key := "KEY" in
  let base := "/soccer/trial/v4/es" in
  let id := "sr:match:2" in
  let calls := fst (odds_calls key base id Sample.boot) in
  let s' := snd (odds_match key base Sample.probabilities_down id Sample.boot) in
  absent_or_expired (CACHE Sample.boot) (sumUrl key base id) (clock Sample.boot)
  /\ settles_with Sample.probabilities_down (sumUrl key base id) (snd calls)
     = Ok Sample.summary_without_home
  /\ code (fst (odds_match key base Sample.probabilities_down id Sample.boot))
     = 500%N
  /\ CACHE s' !! sumUrl key base id
     = Some {| t := clock Sample.boot; d := Sample.summary_without_home |}.
Proof.
  intros key base id calls s'.
  assert (Hmiss : absent_or_expired (CACHE Sample.boot) (sumUrl key base id)
                    (clock Sample.boot)) by (by left).
  assert (Hok : settles_with Sample.probabilities_down (sumUrl key base id)
                  (snd calls) = Ok Sample.summary_without_home)
    by reflexivity.
  split_and!; [exact Hmiss | exact Hok | reflexivity |].
  exact (proj2 (fetched_half_stays_cached key base Sample.probabilities_down
                  id Sample.boot Sample.summary_without_home) Hmiss Hok).
Defined.

Lemma odds_from_fresh_cache_witness :
  let key := "KEY" in
  let base := "/soccer/trial/v4/es" in
  let id := "sr:match:2" in
  let hp := {| t := 1714589990000; d := Sample.probabilities |} in
  let hs := {| t := 1714589995000; d := Sample.summary_without_home |} in
  let s := {| CACHE := <[probUrl key base id := hp]>
                         {[ sumUrl key base id := hs ]};
              clock := 1714590000000;
              fetched := [probUrl key base id; sumUrl key base id] |} in
  odds_match key base Sample.down id s
  = (respond (odds_body id (d hp) (d hs)), s).
Proof.
  intros key base id hp hs s.
  exact (odds_from_fresh_cache key base Sample.down id s hp hs
           eq_refl eq_refl eq_refl eq_refl).
Defined.

Lemma odds_answer_witness :
  let key := "KEY" in
  let base := "/soccer/trial/v4/es" in
  let id := "sr:match:2" in
  let markets :=
    get_opt (get_opt Sample.probabilities "probabilities") "markets" in
  well_listed (get_opt (get_opt Sample.summary_without_home "sport_event")
                 "competitors")
  /\ well_listed markets
  /\ Forall (fun m => well_listed (read m "outcomes")) (items markets)
  /\ exists home away,
       competitor_name "sum?.sport_event"
         (get_opt Sample.summary_without_home "sport_event") "home" = Ok home
       /\ competitor_name "sum?.sport_event"
            (get_opt Sample.summary_without_home "sport_event") "away"
          = Ok away
       /\ fst (odds_match key base Sample.upstream id Sample.boot)
          = {| code := 200;
               sent := OddsBody id
                         (get_opt (get_opt Sample.summary_without_home
                                     "sport_event") "start_time")
                         home away (map remapped_market (items markets)) |}.
Proof.
  intros key base id markets.
  assert (Hcs : well_listed
                  (get_opt (get_opt Sample.summary_without_home "sport_event")
                     "competitors")).
  { right. eexists. split; [reflexivity |]. by repeat constructor. }
  assert (Hms : well_listed markets).
  { right. eexists. split; [reflexivity |]. by repeat constructor. }
  assert (Hos : Forall (fun m => well_listed (read m "outcomes"))
                  (items markets)).
  { constructor; [| constructor; [| constructor]].
    - right. eexists. split; [reflexivity |]. by repeat constructor.
    - by left. }
  split_and!; [exact Hcs | exact Hms | exact Hos |].
  exact (odds_answer key base Sample.upstream id Sample.boot
           Sample.probabilities Sample.summary_without_home
           eq_refl eq_refl Hcs Hms Hos).
Defined.

Lemma gate_of_a_started_server_witness :
  let secret := Env.PROXY_API_KEY Sample.environment in
  let refusal := {| code := 401; sent := ErrorBody "Unauthorized" |} in
  let path := "/search/matches" in
  exits Sample.environment = false
  /\ (authorize secret path None = None
      <-> path = "/healthz" \/ path = "/openapi.yaml" \/ None = secret)
  /\ (is_set None = false -> path <> "/healthz" -> path <> "/openapi.yaml" ->
      authorize secret path None = Some refusal)
  /\ (forall handler s,
        authorize secret path None <> None ->
        behind_gate secret path None handler s = (refusal, s)).
Proof.
  intros secret refusal path. split; [reflexivity |].
  exact (gate_of_a_started_server Sample.environment path None eq_refl).
Defined.

Lemma handlers_never_evict_witness :
  let url := "https://upstream/x.json" in
  is_Some (CACHE Sample.cold !! url)
  /\ is_Some (CACHE (snd (search_matches "KEY" "/soccer/trial/v4/es"
                            Sample.lower Sample.upstream Sample.home_real
                            Sample.cold)) !! url)
  /\ is_Some (CACHE (snd (odds_match "KEY" "/soccer/trial/v4/es"
                            Sample.upstream "sr:match:2" Sample.cold)) !! url).
Proof.
  intros url.
  assert (Hurl : is_Some (CACHE Sample.cold !! url)) by (by eexists).
  split; [exact Hurl |].
  exact (handlers_never_evict "KEY" "/soccer/trial/v4/es" Sample.lower
           Sample.upstream Sample.home_real "sr:match:2" Sample.cold url Hurl).
Defined.

Lemma search_answer_witness :
  let date := QStr "2024-05-01" in
  let q := Sample.home_real in
  let events := get_opt Sample.schedule "sport_events" in
  String_ date = Ok "2024-05-01"
  /\ has_text (Query.home q)
  /\ has_text (Query.away q)
  /\ well_listed events
  /\ Forall (fun ev => well_listed (get_opt ev "competitors")
                       /\ Forall string_or_no_name
                            (items (get_opt ev "competitors")))
       (items events)
  /\ exists all,
       Forall2 (fun ev m => summary_of ev = Ok m) (items events) all
       /\ let kept :=
            List.filter (fun m => passes_b Sample.lower (Query.away q) (away m))
              (List.filter
                 (fun m => passes_b Sample.lower (Query.home q) (home m)) all) in
          fst (search_matches "KEY" "/soccer/trial/v4/es" Sample.lower
                 Sample.upstream q Sample.boot)
          = {| code := 200;
               sent := MatchesBody (Some date) (length kept) kept |}.
Proof.
  intros date q events.
  assert (Hevents : well_listed events).
  { right. eexists. split; [reflexivity |]. by repeat constructor. }
  assert (Hshape : Forall (fun ev => well_listed (get_opt ev "competitors")
                                     /\ Forall string_or_no_name
                                          (items (get_opt ev "competitors")))
                     (items events)).
  { constructor; [| constructor; [| constructor]]; split.
    - right. eexists. split; [reflexivity |]. by repeat constructor.
    - constructor; [right; by eexists |].
      constructor; [right; by eexists | constructor].
    - right. eexists. split; [reflexivity |]. by repeat constructor.
    - constructor; [right; by eexists |].
      constructor; [right; by eexists | constructor]. }
  assert (Hhome : has_text (Query.home q)).
  { intros f [= <-] _. by eexists. }
  assert (Haway : has_text (Query.away q)).
  { intros f [=]. }
  split_and!; [reflexivity | exact Hhome | exact Haway | exact Hevents
              | exact Hshape |].
  exact (search_answer "KEY" "/soccer/trial/v4/es" Sample.lower Sample.upstream
           q Sample.boot date "2024-05-01" Sample.schedule eq_refl eq_refl
           eq_refl Hhome Haway eq_refl Hevents Hshape).
Defined.

Lemma unconvertible_date_is_refused_witness :
  let date := QObj [("toString", QStr "x")] in
  let q := {| Query.date := Some date; Query.home := None;
              Query.away := None |} in
  String_ date = Throw (TypeError "Cannot convert object to primitive value")
  /\ search_matches "KEY" "/soccer/trial/v4/es" Sample.lower Sample.upstream
       q Sample.boot
     = ({| code := 500;
           sent := ErrorBody "Cannot convert object to primitive value" |},
        Sample.boot).
Proof.
  intros date q. split; [reflexivity |].
  exact (unconvertible_date_is_refused "KEY" "/soccer/trial/v4/es"
           Sample.lower Sample.upstream q Sample.boot date _ eq_refl eq_refl).
Defined.

